(** * Live vehicle tracker: the polling and rendering loop of [App.tsx]

    The component [App] of [frontend/src/App.tsx] is embedded as a state
    machine.  Its state gathers the [useRef] cells, the [useState] cells,
    the poll timer and a log of the calls made to the map library, to the
    timers and to the network.  The three effects of the component are
    functions on that state, and the browser (mount, the map's [load]
    event, the passing of time, the settling of a request, unmount)
    drives them through [step].  The one library call of the component
    that can throw on values of the declared type, [Marker.setLngLat],
    is modelled with its exception. *)

From Stdlib Require Import NArith List String Bool Lia PrimFloat.
Import ListNotations.
Open Scope string_scope.

(* A decimal literal denotes the nearest binary64 value, here as in
   JavaScript. *)
Set Warnings "-inexact-float".

(** ** JavaScript numbers

    A JavaScript number is an IEEE 754 binary64 value; [===] on numbers is
    the IEEE comparison (so [NaN] differs from itself, and [0] equals
    [-0]). *)

Definition number := float.
Bind Scope float_scope with number.

Definition strict_eq (a b : number) : bool := PrimFloat.eqb a b.
Definition strict_neq (a b : number) : bool := negb (strict_eq a b).

(** ** The data model: [interface VehicleData] *)

Record Location := {
  updated : string;
  longitude : number;
  latitude : number;
  position_description : string
}.

Record Data := {
  event_ts : string;
  bearing : number;
  speed : number;
  ignition : bool;
  odometer : number;
  altitude : number;
  location : Location
}.

Record VehicleData := { data : Data }.

(** ** Exceptions

    What a [catch (err)] clause can receive: an object for which
    [err instanceof Error] holds, with its [name] and [message], or any
    other thrown value. *)

Inductive Thrown :=
| ErrorObj (name message : string)
| NonError.

Inductive Result (A : Type) :=
| Ok (a : A)
| Throw (e : Thrown).
Arguments Ok {A} a.
Arguments Throw {A} e.

Definition bind {A B : Type} (r : Result A) (k : A -> Result B) : Result B :=
  match r with
  | Ok a => k a
  | Throw e => Throw e
  end.

Notation "x <- r ;; k" := (bind r (fun x => k))
  (at level 61, r at next level, right associativity).
Notation "r ;;; k" := (bind r (fun _ => k))
  (at level 61, right associativity).

(** ** The network, as one invocation of [fetchVehicleData] sees it

    [latency] is the time in milliseconds between the call of [fetch] and
    the moment its promise would settle on its own. *)

Record Response := {
  ok : bool;                    (* response.ok: the status is 2xx *)
  json : Result VehicleData     (* response.json(): the parsed body, or the parser's exception *)
}.

Inductive Net :=
| Resolves (latency : N) (r : Response)
| Rejects (latency : N) (e : Thrown)
| Hangs.

Definition TIMEOUT_MS : N := 5000.

(** The exception [fetch] rejects with when its signal is aborted.  The
    code reads only its [name]. *)
Definition AbortError : Thrown :=
  ErrorObj "AbortError" "The operation was aborted.".

(** [await fetch(url, { signal })] raced against
    [setTimeout(() => controller.abort(), 5000)]: the promise settles on
    its own when it does so before the timer fires, and rejects with
    [AbortError] otherwise. *)
Definition await_fetch (net : Net) : Result Response :=
  match net with
  | Resolves latency r => if (latency <? TIMEOUT_MS)%N then Ok r else Throw AbortError
  | Rejects latency e => if (latency <? TIMEOUT_MS)%N then Throw e else Throw AbortError
  | Hangs => Throw AbortError
  end.

(** The body of the [try] block, up to the two state setters. *)
Definition attempt (net : Net) : Result VehicleData :=
  response <- await_fetch net ;;
  (if negb (ok response)
   then Throw (ErrorObj "Error" "Failed to fetch vehicle data")
   else Ok tt) ;;;
  d <- json response ;;
  Ok d.

Definition is_AbortError (err : Thrown) : bool :=
  match err with
  | ErrorObj name _ => String.eqb name "AbortError"
  | NonError => false
  end.

(** The argument of [setError] in the [catch] block. *)
Definition error_message (err : Thrown) : string :=
  if is_AbortError err then "Request timeout - API is slow"
  else match err with
       | ErrorObj _ message => message
       | NonError => "Unknown error"
       end.

(** The ways an invocation can fail, read off what the network did:
    the deadline passes first, the status is not 2xx, the request is
    rejected, or the body does not parse.  [None] when none applies. *)
Inductive Failure := Timeout | Status | Network | Parse.

Definition failure_kind (net : Net) : option Failure :=
  match net with
  | Hangs => Some Timeout
  | Rejects latency _ =>
      if (latency <? TIMEOUT_MS)%N then Some Network else Some Timeout
  | Resolves latency r =>
      if (latency <? TIMEOUT_MS)%N then
        if ok r then
          match json r with
          | Ok _ => None
          | Throw _ => Some Parse
          end
        else Some Status
      else Some Timeout
  end.

(** ** The map library, as far as the component uses it *)

Record LngLat := { lng : number; lat : number }.

(** Markup built by the template literals.  [Text] is literal text of
    the template, [Raw] an interpolated string and [Num] an interpolated
    number. *)
#[warnings="-register-all"] Inductive Html :=
| Elem (tag : string) (attrs : list (string * string)) (children : list Html)
| Text (s : string)
| Raw (s : string)
| Num (x : number).

Record Element := {
  className : string;
  style_width : string;
  style_height : string;
  style_cursor : string;
  innerHTML : list Html
}.

Record Popup := {
  offset : number;
  html : list Html
}.

(** The exceptions of the library's [LngLat], which [Marker.setLngLat]
    builds from its argument.  The library is not part of the
    repository; its constructor reads
    [if (isNaN(lng) || isNaN(lat)) throw new Error('Invalid LngLat object: ...')]
    and then
    [if (this.lat > 90 || this.lat < -90) throw new Error('Invalid LngLat latitude value: must be between -90 and 90')]. *)
Inductive MapError :=
| InvalidLngLat (lng lat : number)
| InvalidLatitude.

Definition isNaN (x : number) : bool := negb (strict_eq x x).

(** [LngLat.convert([lng, lat])]. *)
Definition LngLat_convert (p : number * number) : MapError + (number * number) :=
  let (lng, lat) := p in
  if isNaN lng || isNaN lat then inl (InvalidLngLat lng lat)
  else if PrimFloat.ltb 90 lat || PrimFloat.ltb lat (-90) then inl InvalidLatitude
  else inr (lng, lat).

(** The coordinates [LngLat] accepts: no [NaN], and a latitude from -90
    to 90. *)
Definition valid_LngLat (p : number * number) : bool :=
  negb (isNaN (fst p) || isNaN (snd p))
  && negb (PrimFloat.ltb 90 (snd p) || PrimFloat.ltb (snd p) (-90)).

Record Marker := {
  element : Element;
  lngLat : option (number * number);
  popup : option Popup;
  addedTo_map : bool
}.

Record RasterSource := {
  source_type : string;
  tiles : list string;
  tileSize : number;
  attribution : string;
  source_maxzoom : number
}.

Record Layer := {
  layer_id : string;
  layer_type : string;
  layer_source : string;
  layer_minzoom : number;
  layer_maxzoom : number
}.

Record Style := {
  version : number;
  sources : list (string * RasterSource);
  layers : list Layer
}.

(** The options of [new maplibregl.Map]; the [container] option is the
    attached [<div>], which the guard of the effect has checked. *)
Record MapOptions := {
  style : Style;
  center : number * number;
  zoom : number;
  maxZoom : number;
  minZoom : number
}.

Inductive Control := NavigationControl.
Inductive Corner := top_left | top_right | bottom_left | bottom_right.

Record FlyToOptions := {
  fly_center : number * number;
  fly_zoom : number;
  fly_duration : number
}.

Record MapObj := {
  options : MapOptions;
  controls : list (Control * Corner);
  on_load : bool;                        (* a listener is registered for 'load' *)
  loaded : bool;                         (* 'load' has been emitted *)
  removed : bool
}.

(** Who invoked [fetchVehicleData]: the map's [load] listener or the
    poll interval. *)
Inductive Caller := ByLoad | ByInterval.

(** The calls the component makes to the outside, in the order made.  A
    call is logged when it returns; one that throws is not, and its
    exception is kept in the state. *)
Inductive Call :=
| NewMap (o : MapOptions)
| AddControl (c : Control) (where_ : Corner)
| OnLoad
| MapRemove
| NewMarker (el : Element)
| SetLngLat (p : number * number)
| SetPopup (p : Popup)
| AddTo
| FlyTo (o : FlyToOptions)
| SetInterval (ms : N)
| ClearInterval
| Fetch (who : Caller) (url : string) (at_ms : N).

(** ** The component's state *)

Inductive Phase :=
| Fresh     (* not mounted yet *)
| Live      (* mounted *)
| Gone.     (* unmounted *)

Record State := {
  phase : Phase;
  now : N;                                (* the clock, in ms since the state was created *)
  mapContainer : bool;                    (* useRef: the container <div> is attached *)
  map : option MapObj;                    (* useRef *)
  marker : option Marker;                 (* useRef *)
  lastPosition : option LngLat;           (* useRef *)
  vehicleData : option VehicleData;       (* useState *)
  loading : bool;                         (* useState *)
  error : option string;                  (* useState *)
  interval : option N;                    (* the poll interval, with the time its next tick is due *)
  map_cleanup : bool;                     (* the map effect has returned its cleanup *)
  uncaught : option MapError;             (* the exception that has left an effect uncaught *)
  calls : list Call
}.

Definition initial : State :=
  {| phase := Fresh; now := 0; mapContainer := false; map := None;
     marker := None; lastPosition := None; vehicleData := None;
     loading := true; error := None; interval := None; map_cleanup := false;
     uncaught := None; calls := [] |}.

Definition set_phase (v : Phase) (s : State) : State :=
  {| phase := v; now := now s; mapContainer := mapContainer s; map := map s;
     marker := marker s; lastPosition := lastPosition s;
     vehicleData := vehicleData s; loading := loading s; error := error s;
     interval := interval s; map_cleanup := map_cleanup s;
     uncaught := uncaught s; calls := calls s |}.

Definition set_now (v : N) (s : State) : State :=
  {| phase := phase s; now := v; mapContainer := mapContainer s; map := map s;
     marker := marker s; lastPosition := lastPosition s;
     vehicleData := vehicleData s; loading := loading s; error := error s;
     interval := interval s; map_cleanup := map_cleanup s;
     uncaught := uncaught s; calls := calls s |}.

Definition set_mapContainer (v : bool) (s : State) : State :=
  {| phase := phase s; now := now s; mapContainer := v; map := map s;
     marker := marker s; lastPosition := lastPosition s;
     vehicleData := vehicleData s; loading := loading s; error := error s;
     interval := interval s; map_cleanup := map_cleanup s;
     uncaught := uncaught s; calls := calls s |}.

Definition set_map (v : option MapObj) (s : State) : State :=
  {| phase := phase s; now := now s; mapContainer := mapContainer s; map := v;
     marker := marker s; lastPosition := lastPosition s;
     vehicleData := vehicleData s; loading := loading s; error := error s;
     interval := interval s; map_cleanup := map_cleanup s;
     uncaught := uncaught s; calls := calls s |}.

Definition set_marker (v : option Marker) (s : State) : State :=
  {| phase := phase s; now := now s; mapContainer := mapContainer s; map := map s;
     marker := v; lastPosition := lastPosition s;
     vehicleData := vehicleData s; loading := loading s; error := error s;
     interval := interval s; map_cleanup := map_cleanup s;
     uncaught := uncaught s; calls := calls s |}.

Definition set_lastPosition (v : option LngLat) (s : State) : State :=
  {| phase := phase s; now := now s; mapContainer := mapContainer s; map := map s;
     marker := marker s; lastPosition := v;
     vehicleData := vehicleData s; loading := loading s; error := error s;
     interval := interval s; map_cleanup := map_cleanup s;
     uncaught := uncaught s; calls := calls s |}.

Definition setVehicleData (v : option VehicleData) (s : State) : State :=
  {| phase := phase s; now := now s; mapContainer := mapContainer s; map := map s;
     marker := marker s; lastPosition := lastPosition s;
     vehicleData := v; loading := loading s; error := error s;
     interval := interval s; map_cleanup := map_cleanup s;
     uncaught := uncaught s; calls := calls s |}.

Definition setLoading (v : bool) (s : State) : State :=
  {| phase := phase s; now := now s; mapContainer := mapContainer s; map := map s;
     marker := marker s; lastPosition := lastPosition s;
     vehicleData := vehicleData s; loading := v; error := error s;
     interval := interval s; map_cleanup := map_cleanup s;
     uncaught := uncaught s; calls := calls s |}.

Definition setError (v : option string) (s : State) : State :=
  {| phase := phase s; now := now s; mapContainer := mapContainer s; map := map s;
     marker := marker s; lastPosition := lastPosition s;
     vehicleData := vehicleData s; loading := loading s; error := v;
     interval := interval s; map_cleanup := map_cleanup s;
     uncaught := uncaught s; calls := calls s |}.

Definition set_interval (v : option N) (s : State) : State :=
  {| phase := phase s; now := now s; mapContainer := mapContainer s; map := map s;
     marker := marker s; lastPosition := lastPosition s;
     vehicleData := vehicleData s; loading := loading s; error := error s;
     interval := v; map_cleanup := map_cleanup s;
     uncaught := uncaught s; calls := calls s |}.

Definition set_map_cleanup (v : bool) (s : State) : State :=
  {| phase := phase s; now := now s; mapContainer := mapContainer s; map := map s;
     marker := marker s; lastPosition := lastPosition s;
     vehicleData := vehicleData s; loading := loading s; error := error s;
     interval := interval s; map_cleanup := v; uncaught := uncaught s;
     calls := calls s |}.

(** An exception leaves an effect.  React then unmounts the view: in a
    run, that teardown is the [Unmount] event. *)
Definition set_uncaught (v : option MapError) (s : State) : State :=
  {| phase := phase s; now := now s; mapContainer := mapContainer s; map := map s;
     marker := marker s; lastPosition := lastPosition s;
     vehicleData := vehicleData s; loading := loading s; error := error s;
     interval := interval s; map_cleanup := map_cleanup s; uncaught := v;
     calls := calls s |}.

(** Appends to the log of calls. *)
Definition call (cs : list Call) (s : State) : State :=
  {| phase := phase s; now := now s; mapContainer := mapContainer s; map := map s;
     marker := marker s; lastPosition := lastPosition s;
     vehicleData := vehicleData s; loading := loading s; error := error s;
     interval := interval s; map_cleanup := map_cleanup s;
     uncaught := uncaught s; calls := calls s ++ cs |}.

(** ** [fetchVehicleData]

    The state setters run when the invocation settles; [net] is what the
    network did for this invocation.  The second component is the value
    the returned promise resolves to. *)
Definition fetchVehicleData (net : Net) (s : State) : State * option VehicleData :=
  match attempt net with
  | Ok d => (setError None (setVehicleData (Some d) s), Some d)
  | Throw err => (setError (Some (error_message err)) s, None)
  end.

(** [const API_URL = import.meta.env.VITE_API_URL || ''] *)
Definition API_URL (VITE_API_URL : option string) : string :=
  match VITE_API_URL with
  | Some u => u
  | None => ""
  end.

Definition status_url (env : option string) : string :=
  API_URL env ++ "/api/vehicle/status".

(** The synchronous part of an invocation: the request leaves. *)
Definition send_request (env : option string) (who : Caller) (at_ms : N) : Call :=
  Fetch who (status_url env) at_ms.

(** ** The first effect: the map *)

Definition map_options : MapOptions :=
  {| style :=
       {| version := 8;
          sources :=
            [("osm-tiles",
              {| source_type := "raster";
                 tiles := ["https://tile.openstreetmap.org/{z}/{x}/{y}.png"];
                 tileSize := 256;
                 attribution := "© OpenStreetMap contributors";
                 source_maxzoom := 19 |})];
          layers :=
            [{| layer_id := "osm-tiles";
                layer_type := "raster";
                layer_source := "osm-tiles";
                layer_minzoom := 0;
                layer_maxzoom := 19 |}] |};
     center := (18.50841, -33.827274)%float;
     zoom := 12;
     maxZoom := 19;
     minZoom := 2 |}.

(** The map object records what the component does to the map: the
    options it was constructed with, the controls added, the listener,
    the removal.  Where the viewport is belongs to the library and to
    the user, who can pan and zoom; the component only asks the map to
    fly, which the log of calls records as [FlyTo]. *)
Definition new_Map (o : MapOptions) : MapObj :=
  {| options := o; controls := []; on_load := false; loaded := false;
     removed := false |}.

Definition addControl (c : Control) (where_ : Corner) (m : MapObj) : MapObj :=
  {| options := options m; controls := controls m ++ [(c, where_)];
     on_load := on_load m; loaded := loaded m; removed := removed m |}.

Definition on_load_listener (m : MapObj) : MapObj :=
  {| options := options m; controls := controls m; on_load := true;
     loaded := loaded m; removed := removed m |}.

Definition emit_load (m : MapObj) : MapObj :=
  {| options := options m; controls := controls m; on_load := on_load m;
     loaded := true; removed := removed m |}.

Definition remove (m : MapObj) : MapObj :=
  {| options := options m; controls := controls m; on_load := on_load m;
     loaded := loaded m; removed := true |}.

Definition isSome {A : Type} (o : option A) : bool :=
  match o with Some _ => true | None => false end.

(** The body of the effect.  Past its guard it returns a cleanup. *)
Definition init_map (s : State) : State :=
  if negb (mapContainer s) || isSome (map s) then s
  else
    let m := new_Map map_options in
    let m := addControl NavigationControl bottom_right m in
    let m := on_load_listener m in
    set_map_cleanup true
      (call [NewMap map_options; AddControl NavigationControl bottom_right; OnLoad]
         (set_map (Some m) s)).

(** Its cleanup, when it returned one: [map.current?.remove()]. *)
Definition init_map_cleanup (s : State) : State :=
  if map_cleanup s then
    match map s with
    | Some m => call [MapRemove] (set_map (Some (remove m)) s)
    | None => s
    end
  else s.

(** The [load] listener. *)
Definition load_listener (env : option string) (s : State) : State :=
  call [send_request env ByLoad (now s)] (setLoading false s).

(** ** The second effect: the marker *)

Definition new_Marker (el : Element) : Marker :=
  {| element := el; lngLat := None; popup := None; addedTo_map := false |}.

Definition with_lngLat (q : number * number) (mk : Marker) : Marker :=
  {| element := element mk; lngLat := Some q; popup := popup mk;
     addedTo_map := addedTo_map mk |}.

(** [marker.setLngLat(lnglat)]: the coordinates go through
    [LngLat_convert], which may throw; when it does not, the marker
    takes them. *)
Definition setLngLat (p : number * number) (mk : Marker) : MapError + Marker :=
  match LngLat_convert p with
  | inl err => inl err
  | inr q => inr (with_lngLat q mk)
  end.

Definition setPopup (p : Popup) (mk : Marker) : Marker :=
  {| element := element mk; lngLat := lngLat mk; popup := Some p;
     addedTo_map := addedTo_map mk |}.

Definition addTo (mk : Marker) : Marker :=
  {| element := element mk; lngLat := lngLat mk; popup := popup mk;
     addedTo_map := true |}.

(** The custom marker element; its colour is keyed on [ignition]. *)
Definition marker_element (ignition : bool) : Element :=
  {| className := "custom-marker";
     style_width := "40px";
     style_height := "40px";
     style_cursor := "pointer";
     innerHTML :=
       [Elem "div"
          [("class", "flex items-center justify-center w-10 h-10 rounded-full shadow-lg transition-transform hover:scale-110");
           ("style", "background-color: " ++ (if ignition then "#10B981" else "#EF4444"))]
          [Elem "span" [("class", "text-2xl")] [Text "🚗"]]] |}.

Definition marker_popup (speed : number) (ignition : bool)
    (position_description : string) : Popup :=
  {| offset := 25;
     html :=
       [Elem "div" [("class", "p-3")]
          [Elem "h3" [("class", "font-bold text-lg mb-2")] [Text "Vehicle Status"];
           Elem "div" [("class", "space-y-1 text-sm")]
             [Elem "p" []
                [Elem "strong" [] [Text "Speed:"]; Text " "; Num speed; Text " km/h"];
              Elem "p" []
                [Elem "strong" [] [Text "Ignition:"]; Text " ";
                 Elem "span"
                   [("class", if ignition then "text-green-600" else "text-red-600")]
                   [Text (if ignition then "On" else "Off")]];
              Elem "p" []
                [Elem "strong" [] [Text "Location:"]; Text " ";
                 Raw position_description]]]] |}.

(** The check of lines 114-117. *)
Definition positionChanged (last : option LngLat) (longitude latitude : number) : bool :=
  match last with
  | None => true
  | Some p => strict_neq (lng p) longitude || strict_neq (lat p) latitude
  end.

(** The body of the effect.  Nothing in it catches an exception: when
    [setLngLat] throws, at line 123 or inside the chain of lines
    152-155, the rest of the pass is skipped, so that the marker
    reference and [lastPosition] are not assigned and [flyTo] is not
    called, and the exception leaves the effect uncaught. *)
Definition update_marker (s : State) : State :=
  match map s, vehicleData s with
  | Some m, Some vd =>
      let longitude := longitude (location (data vd)) in
      let latitude := latitude (location (data vd)) in
      let position_description := position_description (location (data vd)) in
      let speed := speed (data vd) in
      let ignition := ignition (data vd) in
      let changed := positionChanged (lastPosition s) longitude latitude in
      match marker s with
      | Some mk =>
          if changed then
            match setLngLat (longitude, latitude) mk with
            | inr mk' =>
                call [SetLngLat (longitude, latitude)]
                  (set_lastPosition (Some {| lng := longitude; lat := latitude |})
                     (set_marker (Some mk') s))
            | inl err => set_uncaught (Some err) s
            end
          else s
      | None =>
          let el := marker_element ignition in
          let pop := marker_popup speed ignition position_description in
          match setLngLat (longitude, latitude) (new_Marker el) with
          | inr mk1 =>
              let mk := addTo (setPopup pop mk1) in
              let fly := {| fly_center := (longitude, latitude);
                            fly_zoom := 14; fly_duration := 2000 |} in
              call [NewMarker el; SetLngLat (longitude, latitude); SetPopup pop; AddTo;
                    FlyTo fly]
                (set_lastPosition (Some {| lng := longitude; lat := latitude |})
                   (set_marker (Some mk) s))
          | inl err => set_uncaught (Some err) (call [NewMarker el] s)
          end
      end
  | _, _ => s
  end.

(** ** The third effect: the poll interval *)

Definition POLL_MS : N := 15000.

Definition start_poll (s : State) : State :=
  call [SetInterval POLL_MS] (set_interval (Some (now s + POLL_MS)%N) s).

(** Its cleanup: [clearInterval(interval)]. *)
Definition stop_poll (s : State) : State :=
  call [ClearInterval] (set_interval None s).

(** The number of ticks of an interval whose next tick is due at [due]
    that have come due when the clock reaches [target]. *)
Definition ticks_due (due target : N) : N :=
  (if target <? due then 0 else (target - due) / POLL_MS + 1)%N.

(** The times of the first [n] ticks from [due] on. *)
Definition tick_times (due : N) (n : nat) : list N :=
  List.map (fun k => (due + POLL_MS * N.of_nat k)%N) (seq 0 n).

(** ** The events that drive the component *)

Inductive Event :=
| Mount
| MapLoad               (* the map emits 'load' *)
| Elapse (dt : N)       (* dt milliseconds pass *)
| Settle (net : Net)    (* an invocation of fetchVehicleData settles *)
| Unmount.

(** Mount: the refs of the rendered elements are attached, then the
    effects run in the order they are declared. *)
Definition mount (s : State) : State :=
  start_poll (update_marker (init_map (set_mapContainer true (set_phase Live s)))).

(** Unmount: the cleanups run in the order of their effects. *)
Definition unmount (s : State) : State :=
  set_phase Gone (stop_poll (init_map_cleanup s)).

(** The map emits [load] once, to the listeners it has, unless it has
    been removed. *)
Definition map_load (env : option string) (s : State) : State :=
  match map s with
  | Some m =>
      if on_load m && negb (loaded m) && negb (removed m)
      then load_listener env (set_map (Some (emit_load m)) s)
      else s
  | None => s
  end.

(** Time passes: every tick of the interval that comes due runs the
    callback, which invokes [fetchVehicleData]. *)
Definition elapse (env : option string) (dt : N) (s : State) : State :=
  let target := (now s + dt)%N in
  match interval s with
  | None => set_now target s
  | Some due =>
      let n := ticks_due due target in
      set_now target
        (set_interval (Some (due + POLL_MS * n)%N)
           (call (List.map (send_request env ByInterval) (tick_times due (N.to_nat n))) s))
  end.

(** An invocation settles: the setters run, and when [setVehicleData]
    stored a new object the component renders again and the marker
    effect, which depends on [vehicleData], runs. *)
Definition settle (net : Net) (s : State) : State :=
  let (s', ret) := fetchVehicleData net s in
  if isSome ret then update_marker s' else s'.

Definition step (env : option string) (e : Event) (s : State) : State :=
  match e, phase s with
  | Mount, Fresh => mount s
  | MapLoad, Live => map_load env s
  | Elapse dt, _ => elapse env dt s
  | Settle net, Live => settle net s
  | Unmount, Live => unmount s
  | _, _ => s
  end.

Fixpoint run (env : option string) (evs : list Event) (s : State) : State :=
  match evs with
  | [] => s
  | e :: evs' => run env evs' (step env e s)
  end.

(** ** What the component renders *)

Record Panel := {
  engine : string;
  indicator : string;
  speed_shown : number;
  updated_shown : string      (* the argument of [new Date(...).toLocaleString()] *)
}.

Record View := {
  spinner : bool;
  error_banner : option string;
  status_panel : option Panel
}.

Definition render (s : State) : View :=
  {| spinner := loading s;
     error_banner :=
       match error s with
       | Some "" => None           (* [error && ...]: the empty string is falsy *)
       | e => e
       end;
     status_panel :=
       match vehicleData s with
       | Some vd =>
           if negb (loading s) then
             Some {| engine := if ignition (data vd) then "Engine Running" else "Engine Off";
                     indicator := if ignition (data vd) then "bg-green-500" else "bg-red-500";
                     speed_shown := speed (data vd);
                     updated_shown := event_ts (data vd) |}
           else None
       | None => None
       end |}.

(** ** The response body at run time

    [response.json()] resolves to a JSON value; the annotation
    [const data: VehicleData] is not checked when the code runs.  This
    section gives the run-time value of a snapshot of the declared type,
    and what the guard and the property reads of the marker effect do on
    any value. *)

#[warnings="-register-all"] Inductive Value :=
| VUndefined
| VNull
| VBoolean (b : bool)
| VNumber (x : number)
| VString (s : string)
| VArray (items : list Value)
| VObject (props : list (string * Value)).

(** The value of an own property of an object, [undefined] when there
    is none. *)
Fixpoint lookup (key : string) (props : list (string * Value)) : Value :=
  match props with
  | [] => VUndefined
  | (k, v) :: rest => if String.eqb k key then v else lookup key rest
  end.

(** What reading properties comes to: the value read, or a [TypeError].
    The message of the exception differs from one engine to another and
    is not part of the model. *)
Inductive Read (A : Type) :=
| Got (a : A)
| TypeError.
Arguments Got {A} a.
Arguments TypeError {A}.

Definition and_then {A B : Type} (r : Read A) (k : A -> Read B) : Read B :=
  match r with
  | Got a => k a
  | TypeError => TypeError
  end.

Notation "x <~ r ;; k" := (and_then r (fun x => k))
  (at level 61, r at next level, right associativity).

(** [v.key], for the keys the component reads (none of them is a
    built-in property of a string or an array): a [TypeError] on
    [undefined] and [null], the property on an object, [undefined] on
    any other value. *)
Definition get (key : string) (v : Value) : Read Value :=
  match v with
  | VUndefined | VNull => TypeError
  | VObject props => Got (lookup key props)
  | _ => Got VUndefined
  end.

(** [!v] is false: every value but [undefined], [null], [false], [0],
    [-0], [NaN] and the empty string. *)
Definition truthy (v : Value) : bool :=
  match v with
  | VUndefined | VNull => false
  | VBoolean b => b
  | VNumber x => negb (strict_eq x 0 || isNaN x)
  | VString s => negb (String.eqb s "")
  | VArray _ | VObject _ => true
  end.

(** What lines 110-111 of the marker effect bind. *)
Record Reads := {
  read_longitude : Value;
  read_latitude : Value;
  read_position_description : Value;
  read_speed : Value;
  read_ignition : Value;
  read_odometer : Value
}.

(** Lines 110-111 on a value:
    [const { longitude, latitude, position_description } = vehicleData.data.location]
    and [const { speed, ignition, odometer } = vehicleData.data]. *)
Definition read_fix (vehicleData : Value) : Read Reads :=
  d <~ get "data" vehicleData ;;
  loc <~ get "location" d ;;
  longitude <~ get "longitude" loc ;;
  latitude <~ get "latitude" loc ;;
  position_description <~ get "position_description" loc ;;
  d' <~ get "data" vehicleData ;;
  speed <~ get "speed" d' ;;
  ignition <~ get "ignition" d' ;;
  odometer <~ get "odometer" d' ;;
  Got {| read_longitude := longitude; read_latitude := latitude;
         read_position_description := position_description;
         read_speed := speed; read_ignition := ignition; read_odometer := odometer |}.

(** Lines 108-111 of the marker effect on the held value, when there is
    a map: the guard [!vehicleData] returns on a falsy value before
    anything is read ([None]); otherwise the reads are made. *)
Definition marker_reads (vehicleData : Value) : option (Read Reads) :=
  if negb (truthy vehicleData) then None else Some (read_fix vehicleData).

(** The run-time value of a snapshot of the declared type,
    [interface VehicleData]. *)
Definition Location_value (l : Location) : Value :=
  VObject
    [("updated", VString (updated l));
     ("longitude", VNumber (longitude l));
     ("latitude", VNumber (latitude l));
     ("position_description", VString (position_description l))].

Definition Data_value (d : Data) : Value :=
  VObject
    [("event_ts", VString (event_ts d));
     ("bearing", VNumber (bearing d));
     ("speed", VNumber (speed d));
     ("ignition", VBoolean (ignition d));
     ("odometer", VNumber (odometer d));
     ("altitude", VNumber (altitude d));
     ("location", Location_value (location d))].

Definition VehicleData_value (vd : VehicleData) : Value :=
  VObject [("data", Data_value (data vd))].

Definition as_string (v : Value) : option string :=
  match v with VString s => Some s | _ => None end.

Definition as_number (v : Value) : option number :=
  match v with VNumber x => Some x | _ => None end.

Definition as_boolean (v : Value) : option bool :=
  match v with VBoolean b => Some b | _ => None end.

(** The shape the specification gives the body, in the words of its
    section 3: an object with the fields [event_ts], [bearing], [speed],
    [ignition], [odometer], [altitude] and a nested object [location]
    with [updated], [longitude], [latitude], [position_description]. *)
Definition spec_VehicleStatus_shape (v : Value) : bool :=
  match v with
  | VObject props =>
      isSome (as_string (lookup "event_ts" props)) &&
      isSome (as_number (lookup "bearing" props)) &&
      isSome (as_number (lookup "speed" props)) &&
      isSome (as_boolean (lookup "ignition" props)) &&
      isSome (as_number (lookup "odometer" props)) &&
      isSome (as_number (lookup "altitude" props)) &&
      match lookup "location" props with
      | VObject loc =>
          isSome (as_string (lookup "updated" loc)) &&
          isSome (as_number (lookup "longitude" loc)) &&
          isSome (as_number (lookup "latitude" loc)) &&
          isSome (as_string (lookup "position_description" loc))
      | _ => false
      end
  | _ => false
  end.

(** ** Observations on a run *)

(** The options of the [flyTo] calls of a log, in order. *)
Definition flyTos (cs : list Call) : list FlyToOptions :=
  flat_map (fun c => match c with FlyTo o => [o] | _ => [] end) cs.

(** The arguments of the [setLngLat] calls of a log, in order. *)
Definition setLngLats (cs : list Call) : list (number * number) :=
  flat_map (fun c => match c with SetLngLat p => [p] | _ => [] end) cs.

(** The argument of the latest [setLngLat] call of a log. *)
Definition last_setLngLat (cs : list Call) : option (number * number) :=
  fold_left (fun acc c => match c with SetLngLat p => Some p | _ => acc end) cs None.

Definition newMarkers (cs : list Call) : list Element :=
  flat_map (fun c => match c with NewMarker el => [el] | _ => [] end) cs.

Definition newMaps (cs : list Call) : list MapOptions :=
  flat_map (fun c => match c with NewMap o => [o] | _ => [] end) cs.

(** The requests of a log, in order: who sent each, and when. *)
Definition fetches (cs : list Call) : list (Caller * N) :=
  flat_map (fun c => match c with Fetch who _ at_ms => [(who, at_ms)] | _ => [] end) cs.

(** The times of the requests sent by the poll interval. *)
Definition interval_fetches (cs : list Call) : list N :=
  flat_map (fun c => match c with Fetch ByInterval _ at_ms => [at_ms] | _ => [] end) cs.

Definition is_Mount (e : Event) : bool :=
  match e with Mount => true | _ => false end.

Definition is_Unmount (e : Event) : bool :=
  match e with Unmount => true | _ => false end.

(** The time that passes during a list of events. *)
Fixpoint elapsed (evs : list Event) : N :=
  match evs with
  | [] => 0
  | Elapse dt :: evs' => dt + elapsed evs'
  | _ :: evs' => elapsed evs'
  end.

(** The snapshot of the first invocation that settles with success
    while the view is mounted. *)
Fixpoint first_fix (evs : list Event) : option VehicleData :=
  match evs with
  | [] => None
  | Unmount :: _ => None
  | Settle net :: evs' =>
      match attempt net with
      | Ok d => Some d
      | Throw _ => first_fix evs'
      end
  | _ :: evs' => first_fix evs'
  end.

(** The coordinates of a snapshot, as the marker effect reads them. *)
Definition coordinates (d : VehicleData) : number * number :=
  (longitude (location (data d)), latitude (location (data d))).

(** The calls that create, move or show the marker. *)
Definition about_marker (c : Call) : bool :=
  match c with
  | NewMarker _ | SetLngLat _ | SetPopup _ | AddTo | FlyTo _ => true
  | _ => false
  end.

(** [lastPosition] tracks the marker: with a marker, it holds the
    coordinates the marker was last given, which are those of the latest
    [setLngLat] call that returned; without one, it is null and no
    [setLngLat] call has returned. *)
Definition tracks (s : State) : Prop :=
  match marker s with
  | Some mk =>
      exists a b,
        lngLat mk = Some (a, b) /\
        lastPosition s = Some {| lng := a; lat := b |} /\
        last_setLngLat (calls s) = Some (a, b)
  | None => lastPosition s = None /\ last_setLngLat (calls s) = None
  end.

(** [quiet s s']: from [s] to [s'] the marker and [lastPosition] are
    untouched, the map object is there if it was, and the calls added
    are not about a marker. *)
Definition quiet (s s' : State) : Prop :=
  marker s' = marker s /\ lastPosition s' = lastPosition s /\
  (map s <> None -> map s' <> None) /\
  exists cs : list Call, calls s' = (calls s ++ cs)%list /\ filter about_marker cs = [].

(** [same_surface s s']: from [s] to [s'] no map is constructed, and a
    map object that was there is still there, with the options and the
    controls it had. *)
Definition same_surface (s s' : State) : Prop :=
  newMaps (calls s') = newMaps (calls s) /\
  forall m, map s = Some m ->
    exists m', map s' = Some m' /\ options m' = options m /\ controls m' = controls m.

(** [same_poll s s']: from [s] to [s'] the clock and the poll interval
    are untouched and the interval has sent no request. *)
Definition same_poll (s s' : State) : Prop :=
  phase s' = phase s /\ now s' = now s /\ interval s' = interval s /\
  interval_fetches (calls s') = interval_fetches (calls s).

(** The poll runs on schedule: the view is mounted, [k] ticks have come
    due, each has sent its request at its time, and the next tick is due
    one period after the last. *)
Definition on_schedule (k : N) (s : State) : Prop :=
  phase s = Live /\
  interval s = Some (POLL_MS * (k + 1))%N /\
  interval_fetches (calls s) = tick_times POLL_MS (N.to_nat k) /\
  (POLL_MS * k <= now s < POLL_MS * (k + 1))%N.

(** ** Sample data *)

Definition fix_home : VehicleData :=
  {| data :=
       {| event_ts := "2025-01-01T10:00:00Z"; bearing := 0; speed := 0;
          ignition := false; odometer := 1200; altitude := 15;
          location :=
            {| updated := "2025-01-01T10:00:00Z"; longitude := 18.5;
               latitude := -33.9; position_description := "Home" |} |} |}.

Definition fix_home_running : VehicleData :=
  {| data :=
       {| event_ts := "2025-01-01T10:00:15Z"; bearing := 0; speed := 0;
          ignition := true; odometer := 1200; altitude := 15;
          location :=
            {| updated := "2025-01-01T10:00:15Z"; longitude := 18.5;
               latitude := -33.9; position_description := "Home" |} |} |}.

Definition fix_road : VehicleData :=
  {| data :=
       {| event_ts := "2025-01-01T10:00:45Z"; bearing := 90; speed := 42;
          ignition := true; odometer := 1201; altitude := 17;
          location :=
            {| updated := "2025-01-01T10:00:45Z"; longitude := 18.52;
               latitude := -33.91; position_description := "Main Road" |} |} |}.

(** A fix of the declared type that is not on the map: its latitude is
    outside the range from -90 to 90. *)
Definition fix_off_map : VehicleData :=
  {| data :=
       {| event_ts := "2025-01-01T10:01:00Z"; bearing := 0; speed := 10;
          ignition := true; odometer := 1202; altitude := 17;
          location :=
            {| updated := "2025-01-01T10:01:00Z"; longitude := 18.5;
               latitude := 95; position_description := "Nowhere" |} |} |}.

(** The marker of [fix_home]. *)
Definition marker_home : Marker :=
  {| element := marker_element false;
     lngLat := Some (18.5, -33.9)%float;
     popup := Some (marker_popup 0 false "Home");
     addedTo_map := true |}.

(** A body shaped as section 3 of the specification has it, with the
    fields at the top level. *)
Definition body_flat : Value :=
  VObject
    [("event_ts", VString "2025-01-01T10:00:00Z");
     ("bearing", VNumber 0);
     ("speed", VNumber 0);
     ("ignition", VBoolean false);
     ("odometer", VNumber 1200);
     ("altitude", VNumber 15);
     ("location",
      VObject
        [("updated", VString "2025-01-01T10:00:00Z");
         ("longitude", VNumber 18.5);
         ("latitude", VNumber (-33.9));
         ("position_description", VString "Home")])].

(** The same status under a [data] field, as the interface has it. *)
Definition body_wrapped : Value := VObject [("data", body_flat)].

(** A response that arrives after 100 ms, with status 200 and body [d]. *)
Definition ok_in_time (d : VehicleData) : Net :=
  Resolves 100 {| ok := true; json := Ok d |}.

(** The view after mount, map load and a first fix. *)
Definition tracking : State :=
  run None [Mount; Elapse 3000; MapLoad; Elapse 100; Settle (ok_in_time fix_home)] initial.

(** ** Further observations on a run *)

(** The snapshot a mounted view holds after a list of events, when it
    held [held] before: every invocation that settles with success
    replaces it, until the view is unmounted. *)
Fixpoint latest_fix_from (held : option VehicleData) (evs : list Event)
    : option VehicleData :=
  match evs with
  | [] => held
  | Unmount :: _ => held
  | Settle net :: evs' =>
      latest_fix_from
        (match attempt net with Ok d => Some d | Throw _ => held end) evs'
  | _ :: evs' => latest_fix_from held evs'
  end.

(** The error state a mounted view has after a list of events, when it
    had [shown] before: every invocation that settles sets it, to null
    on success and to the message of the failure otherwise. *)
Fixpoint last_error_from (shown : option string) (evs : list Event)
    : option string :=
  match evs with
  | [] => shown
  | Unmount :: _ => shown
  | Settle net :: evs' =>
      last_error_from
        (match attempt net with
         | Ok _ => None
         | Throw err => Some (error_message err)
         end) evs'
  | _ :: evs' => last_error_from shown evs'
  end.

(** The time at which the map emits [load] to a mounted view, in a list
    of events that starts at time [t]. *)
Fixpoint load_time (t : N) (evs : list Event) : option N :=
  match evs with
  | [] => None
  | MapLoad :: _ => Some t
  | Unmount :: _ => None
  | Elapse dt :: evs' => load_time (t + dt) evs'
  | _ :: evs' => load_time t evs'
  end.

(** The times of the requests sent by the [load] listener. *)
Definition load_fetches (cs : list Call) : list N :=
  flat_map (fun c => match c with Fetch ByLoad _ at_ms => [at_ms] | _ => [] end) cs.

(** The URLs requested, in order. *)
Definition requested_urls (cs : list Call) : list string :=
  flat_map (fun c => match c with Fetch _ url _ => [url] | _ => [] end) cs.

(** The number of [map.remove()] calls of a log. *)
Definition map_removals (cs : list Call) : nat :=
  List.length (filter (fun c => match c with MapRemove => true | _ => false end) cs).

(** The status panel of a snapshot, as the JSX builds it. *)
Definition panel_of (vd : VehicleData) : Panel :=
  {| engine := if ignition (data vd) then "Engine Running" else "Engine Off";
     indicator := if ignition (data vd) then "bg-green-500" else "bg-red-500";
     speed_shown := speed (data vd);
     updated_shown := event_ts (data vd) |}.

(** The banner the JSX shows for an exception caught by
    [fetchVehicleData]: none when its message is empty. *)
Definition banner_of (err : Thrown) : option string :=
  match error_message err with
  | "" => None
  | message => Some message
  end.

(** [v == null]: the values on which a property read throws. *)
Definition nullish (v : Value) : bool :=
  match v with
  | VUndefined | VNull => true
  | _ => false
  end.

(** The value of [v.key] when [v] is not nullish. *)
Definition prop (key : string) (v : Value) : Value :=
  match v with
  | VObject props => lookup key props
  | _ => VUndefined
  end.

(** [same_load s s']: from [s] to [s'] the loading flag is untouched,
    the [load] listener has sent no request, and a map object that was
    there is still there, as ready and as removed as it was. *)
Definition same_load (s s' : State) : Prop :=
  loading s' = loading s /\
  load_fetches (calls s') = load_fetches (calls s) /\
  forall m, map s = Some m ->
    exists m', map s' = Some m' /\ on_load m' = on_load m /\
      loaded m' = loaded m /\ removed m' = removed m.

(** The first fix of a list of events, when there is one, has
    coordinates the map library accepts. *)
Definition first_fix_valid (evs : list Event) : bool :=
  match first_fix evs with
  | Some d => valid_LngLat (coordinates d)
  | None => true
  end.

(** The marker of [s'] looks like [mk]: same element, same popup, added
    to the map as [mk] is. *)
Definition looks_like (mk : Marker) (s' : State) : Prop :=
  exists mk', marker s' = Some mk' /\ element mk' = element mk /\
    popup mk' = popup mk /\ addedTo_map mk' = addedTo_map mk.

(** A view that tracks at home and has just received a fix on the road,
    before the marker effect has run. *)
Definition tracking_new_fix : State := setVehicleData (Some fix_road) tracking.

(** * Properties *)

Open Scope list_scope.

(** ** The status fetcher *)

(** An invocation succeeds exactly when the response arrives before the
    deadline, has a 2xx status and a body that parses. *)
Lemma attempt_Ok_iff (net : Net) (d : VehicleData) :
  attempt net = Ok d <->
  exists latency, (latency < TIMEOUT_MS)%N /\
    net = Resolves latency {| ok := true; json := Ok d |}.
Proof.
  split.
  - unfold attempt, await_fetch.
    destruct net as [latency [o j] | latency e | ]; try discriminate.
    + destruct (N.ltb_spec latency TIMEOUT_MS) as [Hlt | Hge]; cbn; [ | discriminate ].
      destruct o; cbn; [ | discriminate ].
      destruct j as [d' | e]; cbn; [ | discriminate ].
      intros [= ->]. now exists latency.
    + destruct (latency <? TIMEOUT_MS)%N; discriminate.
  - intros (latency & Hlt & ->). unfold attempt, await_fetch.
    apply N.ltb_lt in Hlt. now rewrite Hlt.
Qed.

Lemma settle_failure (net : Net) (err : Thrown) (s : State) :
  attempt net = Throw err ->
  settle net s = setError (Some (error_message err)) s.
Proof.
  intros H. unfold settle, fetchVehicleData. now rewrite H.
Qed.

Lemma settle_success (net : Net) (d : VehicleData) (s : State) :
  attempt net = Ok d ->
  settle net s = update_marker (setError None (setVehicleData (Some d) s)).
Proof.
  intros H. unfold settle, fetchVehicleData. now rewrite H.
Qed.

(** C1. An invocation of [fetchVehicleData] that succeeds replaces the
    held snapshot by the new response and clears the error.  One that
    fails, of whatever kind, changes the error message and nothing else:
    the snapshot, the marker, the map and the status panel stay as they
    were, and no call is made to the map. *)
Theorem failed_poll_keeps_snapshot (net : Net) (s : State) :
  let s' := fst (fetchVehicleData net s) in
  match failure_kind net with
  | None =>
      exists latency d,
        (latency < 5000)%N /\
        net = Resolves latency {| ok := true; json := Ok d |} /\
        vehicleData s' = Some d /\ error s' = None /\
        snd (fetchVehicleData net s) = Some d
  | Some _ =>
      vehicleData s' = vehicleData s /\
      (exists message, error s' = Some message) /\
      snd (fetchVehicleData net s) = None /\
      s' = setError (error s') s /\
      settle net s = s' /\
      marker s' = marker s /\ map s' = map s /\
      lastPosition s' = lastPosition s /\ calls s' = calls s /\
      status_panel (render s') = status_panel (render s)
  end.
Proof.
  cbv zeta.
  assert (Hfail : forall err, attempt net = Throw err ->
            vehicleData (fst (fetchVehicleData net s)) = vehicleData s /\
            (exists message, error (fst (fetchVehicleData net s)) = Some message) /\
            snd (fetchVehicleData net s) = None /\
            fst (fetchVehicleData net s) = setError (error (fst (fetchVehicleData net s))) s /\
            settle net s = fst (fetchVehicleData net s) /\
            marker (fst (fetchVehicleData net s)) = marker s /\
            map (fst (fetchVehicleData net s)) = map s /\
            lastPosition (fst (fetchVehicleData net s)) = lastPosition s /\
            calls (fst (fetchVehicleData net s)) = calls s /\
            status_panel (render (fst (fetchVehicleData net s))) = status_panel (render s)).
  { intros err H. unfold settle, fetchVehicleData. rewrite H. cbn.
    repeat split. now eexists. }
  unfold failure_kind.
  destruct net as [latency [o j] | latency e | ].
  - destruct (latency <? TIMEOUT_MS)%N eqn:Hl.
    + destruct o.
      * destruct j as [d | e].
        -- exists latency, d. unfold fetchVehicleData, attempt, await_fetch.
           rewrite Hl. cbn. repeat split. now apply N.ltb_lt.
        -- apply (Hfail e). unfold attempt, await_fetch. now rewrite Hl.
      * apply (Hfail (ErrorObj "Error" "Failed to fetch vehicle data")).
        unfold attempt, await_fetch. now rewrite Hl.
    + apply (Hfail AbortError). unfold attempt, await_fetch. now rewrite Hl.
  - destruct (latency <? TIMEOUT_MS)%N eqn:Hl.
    + apply (Hfail e). unfold attempt, await_fetch. now rewrite Hl.
    + apply (Hfail AbortError). unfold attempt, await_fetch. now rewrite Hl.
  - now apply (Hfail AbortError).
Qed.

(** C2, as the specification states it, fails: a response with a
    non-2xx status and a request that the network rejects are both
    failures other than the timeout, and they set different messages. *)
Lemma other_failures_do_not_share_a_message :
  let non_2xx := Resolves 120 {| ok := false; json := Throw (ErrorObj "SyntaxError" "Unexpected token") |} in
  let offline := Rejects 3 (ErrorObj "TypeError" "Failed to fetch") in
  error (fst (fetchVehicleData non_2xx initial)) = Some "Failed to fetch vehicle data" /\
  error (fst (fetchVehicleData offline initial)) = Some "Failed to fetch" /\
  error (fst (fetchVehicleData non_2xx initial)) <>
  error (fst (fetchVehicleData offline initial)).
Proof.
  cbn. repeat split. discriminate.
Qed.

(** C2, amended.  The message set by a failed invocation, case by case:
    the fixed timeout message when the 5-second deadline aborts the
    request (or the exception caught is otherwise named [AbortError]);
    the fixed message of the code's own [Error] for a non-2xx status;
    for a rejected request or a body that does not parse, the message of
    the exception caught, or ["Unknown error"] when it is not an
    [Error]. *)
Theorem error_message_by_failure_kind (net : Net) (s : State) :
  let shown (e : Thrown) :=
    match e with
    | ErrorObj name message =>
        if String.eqb name "AbortError" then "Request timeout - API is slow"
        else message
    | NonError => "Unknown error"
    end in
  error (fst (fetchVehicleData net s)) =
  match net with
  | Hangs => Some "Request timeout - API is slow"
  | Rejects latency e =>
      if (5000 <=? latency)%N then Some "Request timeout - API is slow"
      else Some (shown e)
  | Resolves latency r =>
      if (5000 <=? latency)%N then Some "Request timeout - API is slow"
      else if negb (ok r) then Some "Failed to fetch vehicle data"
      else match json r with
           | Ok _ => None
           | Throw e => Some (shown e)
           end
  end.
Proof.
  cbv zeta. unfold fetchVehicleData, attempt, await_fetch, TIMEOUT_MS.
  destruct net as [latency [o j] | latency e | ]; [ | | reflexivity ].
  - rewrite N.leb_antisym.
    destruct (latency <? 5000)%N; [ | reflexivity ].
    destruct o; [ | reflexivity ].
    destruct j as [d | [name message | ]]; reflexivity.
  - rewrite N.leb_antisym.
    destruct (latency <? 5000)%N; [ | reflexivity ].
    destruct e as [name message | ]; reflexivity.
Qed.

(** ** Runs *)

Lemma run_app (env : option string) (evs1 evs2 : list Event) (s : State) :
  run env (evs1 ++ evs2) s = run env evs2 (run env evs1 s).
Proof.
  revert s. induction evs1 as [ | e evs1 IH]; intros s; cbn; [ reflexivity | apply IH ].
Qed.

(** A property that holds initially and that every step preserves holds
    after every run. *)
Lemma run_invariant (env : option string) (P : State -> Prop) :
  (forall e s, P s -> P (step env e s)) ->
  forall evs s, P s -> P (run env evs s).
Proof.
  intros Hstep evs. induction evs as [ | e evs IH]; intros s Hs; cbn; auto.
Qed.

(** ** The log of calls *)

Lemma last_setLngLat_app (cs1 cs2 : list Call) :
  last_setLngLat (cs1 ++ cs2) =
  fold_left (fun acc c => match c with SetLngLat p => Some p | _ => acc end)
    cs2 (last_setLngLat cs1).
Proof. unfold last_setLngLat. apply fold_left_app. Qed.

(** Calls that are not about a marker do not show in the observations
    of the marker. *)
Lemma quiet_last_setLngLat (cs : list Call) (acc : option (number * number)) :
  filter about_marker cs = [] ->
  fold_left (fun acc c => match c with SetLngLat p => Some p | _ => acc end) cs acc = acc.
Proof.
  revert acc. induction cs as [ | c cs IH]; intros acc H; cbn in *; [ reflexivity | ].
  destruct c; cbn in H; try discriminate; now apply IH.
Qed.

Lemma quiet_flat_map {A : Type} (f : Call -> list A) (cs : list Call) :
  (forall c, about_marker c = false -> f c = []) ->
  filter about_marker cs = [] -> flat_map f cs = [].
Proof.
  intros Hf. induction cs as [ | c cs IH]; cbn; [ reflexivity | ].
  destruct (about_marker c) eqn:Hc; [ discriminate | ].
  intros H. now rewrite (Hf c Hc), IH.
Qed.

Lemma requests_quiet (env : option string) (who : Caller) (ts : list N) :
  filter about_marker (List.map (send_request env who) ts) = [].
Proof. induction ts as [ | t ts IH]; cbn; auto. Qed.

(** ** What the other effects and handlers leave alone *)



Lemma quiet_refl (s : State) : quiet s s.
Proof.
  repeat split; auto. exists []. now rewrite app_nil_r.
Qed.

Lemma quiet_trans (s1 s2 s3 : State) : quiet s1 s2 -> quiet s2 s3 -> quiet s1 s3.
Proof.
  intros (Hm & Hl & Hp & cs & Hc & Hq) (Hm' & Hl' & Hp' & cs' & Hc' & Hq').
  repeat split; try congruence; auto.
  exists (cs ++ cs'). split.
  - now rewrite Hc', Hc, app_assoc.
  - now rewrite filter_app, Hq, Hq'.
Qed.

Lemma quiet_tracks (s s' : State) : quiet s s' -> tracks s -> tracks s'.
Proof.
  intros (Hm & Hl & _ & cs & Hc & Hq). unfold tracks. rewrite Hm, Hl, Hc.
  destruct (marker s) as [mk | ].
  - intros (a & b & H1 & H2 & H3). exists a, b. repeat split; auto.
    now rewrite last_setLngLat_app, quiet_last_setLngLat.
  - intros [H1 H2]. split; auto.
    now rewrite last_setLngLat_app, quiet_last_setLngLat.
Qed.

Ltac quiet_by_computation :=
  split; [ reflexivity | ];
  split; [ reflexivity | ];
  split; [ cbn; intros; first [ assumption | discriminate ] | ];
  first [ exists []; split; [ cbn; now rewrite app_nil_r | reflexivity ]
        | eexists; split; [ reflexivity | cbn; auto using requests_quiet ] ].

Lemma init_map_quiet (s : State) : quiet s (init_map s).
Proof.
  unfold init_map.
  destruct (negb (mapContainer s) || isSome (map s)); [ apply quiet_refl | ].
  quiet_by_computation.
Qed.

Lemma init_map_cleanup_quiet (s : State) : quiet s (init_map_cleanup s).
Proof.
  unfold init_map_cleanup. destruct (map_cleanup s); [ | apply quiet_refl ].
  destruct (map s) eqn:Hm; [ | apply quiet_refl ].
  quiet_by_computation.
Qed.

Lemma start_poll_quiet (s : State) : quiet s (start_poll s).
Proof. quiet_by_computation. Qed.

Lemma stop_poll_quiet (s : State) : quiet s (stop_poll s).
Proof. quiet_by_computation. Qed.

Lemma map_load_quiet (env : option string) (s : State) : quiet s (map_load env s).
Proof.
  unfold map_load. destruct (map s) eqn:Hm; [ | apply quiet_refl ].
  destruct (on_load m && negb (loaded m) && negb (removed m)); [ | apply quiet_refl ].
  quiet_by_computation.
Qed.

Lemma elapse_quiet (env : option string) (dt : N) (s : State) : quiet s (elapse env dt s).
Proof.
  unfold elapse. destruct (interval s) eqn:Hi.
  - quiet_by_computation.
  - repeat split; cbn; auto. exists []. now rewrite app_nil_r.
Qed.

Lemma setters_quiet (v : option VehicleData) (e : option string) (s : State) :
  quiet s (setError e (setVehicleData v s)) /\ quiet s (setError e s).
Proof. split; quiet_by_computation. Qed.

(** Every step is made of handlers that are quiet about the marker and
    of at most one pass of the marker effect. *)
Lemma step_shape (env : option string) (e : Event) (s : State) :
  exists s0, quiet s s0 /\
    (step env e s = s0 \/ quiet (update_marker s0) (step env e s)).
Proof.
  destruct e as [ | | dt | net | ]; cbn [step].
  - destruct (phase s).
    + exists (init_map (set_mapContainer true (set_phase Live s))). split.
      * eapply quiet_trans; [ | apply init_map_quiet ]. quiet_by_computation.
      * right. apply start_poll_quiet.
    + exists s. split; [ apply quiet_refl | now left ].
    + exists s. split; [ apply quiet_refl | now left ].
  - exists (match phase s with Live => map_load env s | _ => s end). split; [ | now left ].
    destruct (phase s); auto using quiet_refl, map_load_quiet.
  - exists (elapse env dt s). split; [ apply elapse_quiet | left; now destruct (phase s) ].
  - destruct (phase s); try (exists s; split; [ apply quiet_refl | now left ]).
    unfold settle, fetchVehicleData. destruct (attempt net) as [d | err]; cbn.
    + exists (setError None (setVehicleData (Some d) s)). split.
      * apply setters_quiet.
      * right. apply quiet_refl.
    + exists (setError (Some (error_message err)) s). split; [ | now left ].
      apply (setters_quiet None).
  - exists (match phase s with Live => unmount s | _ => s end). split; [ | now left ].
    destruct (phase s); auto using quiet_refl.
    unfold unmount.
    eapply quiet_trans; [ apply init_map_cleanup_quiet | ].
    eapply quiet_trans; [ apply stop_poll_quiet | ]. quiet_by_computation.
Qed.

(** A property of the marker that the quiet handlers and the marker
    effect preserve is preserved by every step. *)
Lemma step_preserves (env : option string) (P : State -> Prop) :
  (forall s s', quiet s s' -> P s -> P s') ->
  (forall s, P s -> P (update_marker s)) ->
  forall e s, P s -> P (step env e s).
Proof.
  intros Hq Hu e s Hs.
  destruct (step_shape env e s) as (s0 & H0 & [-> | H1]).
  - now apply (Hq s).
  - apply (Hq _ _ H1). apply Hu. now apply (Hq s).
Qed.

(** ** The marker presenter *)

(** [setLngLat] returns exactly on the coordinates the library accepts,
    and then the marker has taken them. *)
Lemma LngLat_convert_valid (p : number * number) :
  LngLat_convert p = if valid_LngLat p then inr p else LngLat_convert p.
Proof.
  destruct p as [a b]. unfold LngLat_convert, valid_LngLat. cbn [fst snd].
  destruct (isNaN a || isNaN b); [ reflexivity | ].
  now destruct (PrimFloat.ltb 90 b || PrimFloat.ltb b (-90)).
Qed.

Lemma LngLat_convert_invalid (p : number * number) :
  valid_LngLat p = false -> exists err, LngLat_convert p = inl err.
Proof.
  destruct p as [a b]. unfold LngLat_convert, valid_LngLat. cbn [fst snd].
  destruct (isNaN a || isNaN b); [ now eexists | ].
  destruct (PrimFloat.ltb 90 b || PrimFloat.ltb b (-90)); [ now eexists | discriminate ].
Qed.

Lemma setLngLat_valid (p : number * number) (mk : Marker) :
  valid_LngLat p = true -> setLngLat p mk = inr (with_lngLat p mk).
Proof.
  intros H. unfold setLngLat. rewrite LngLat_convert_valid, H. reflexivity.
Qed.

Lemma setLngLat_invalid (p : number * number) (mk : Marker) :
  valid_LngLat p = false -> exists err, setLngLat p mk = inl err.
Proof.
  intros H. unfold setLngLat. destruct (LngLat_convert_invalid p H) as (err & ->).
  now exists err.
Qed.

(** The ways a pass of the marker effect can go. *)

Lemma update_marker_idle (s : State) :
  map s = None \/ vehicleData s = None -> update_marker s = s.
Proof.
  unfold update_marker. intros [-> | ->]; [ reflexivity | ].
  now destruct (map s).
Qed.

Lemma update_marker_same (s : State) (m : MapObj) (d : VehicleData) (mk : Marker) :
  map s = Some m -> vehicleData s = Some d -> marker s = Some mk ->
  positionChanged (lastPosition s) (fst (coordinates d)) (snd (coordinates d)) = false ->
  update_marker s = s.
Proof.
  unfold update_marker, coordinates. intros -> -> -> H. cbn in H. now rewrite H.
Qed.

Lemma update_marker_move (s : State) (m : MapObj) (d : VehicleData) (mk : Marker) :
  map s = Some m -> vehicleData s = Some d -> marker s = Some mk ->
  positionChanged (lastPosition s) (fst (coordinates d)) (snd (coordinates d)) = true ->
  valid_LngLat (coordinates d) = true ->
  update_marker s =
  call [SetLngLat (coordinates d)]
    (set_lastPosition (Some {| lng := fst (coordinates d); lat := snd (coordinates d) |})
       (set_marker (Some (with_lngLat (coordinates d) mk)) s)).
Proof.
  unfold update_marker. intros -> -> -> H Hv. cbn in H. rewrite H.
  fold (coordinates d). now rewrite (setLngLat_valid _ mk Hv).
Qed.

(** Line 123 throws: line 124 is not reached. *)
Lemma update_marker_move_throws (s : State) (m : MapObj) (d : VehicleData) (mk : Marker) :
  map s = Some m -> vehicleData s = Some d -> marker s = Some mk ->
  positionChanged (lastPosition s) (fst (coordinates d)) (snd (coordinates d)) = true ->
  valid_LngLat (coordinates d) = false ->
  exists err, update_marker s = set_uncaught (Some err) s.
Proof.
  unfold update_marker. intros -> -> -> H Hv. cbn in H. rewrite H.
  fold (coordinates d). destruct (setLngLat_invalid _ mk Hv) as (err & ->).
  now exists err.
Qed.

Lemma update_marker_create (s : State) (m : MapObj) (d : VehicleData) :
  map s = Some m -> vehicleData s = Some d -> marker s = None ->
  valid_LngLat (coordinates d) = true ->
  let el := marker_element (ignition (data d)) in
  let pop := marker_popup (speed (data d)) (ignition (data d))
               (position_description (location (data d))) in
  let fly := {| fly_center := coordinates d; fly_zoom := 14; fly_duration := 2000 |} in
  update_marker s =
  call [NewMarker el; SetLngLat (coordinates d); SetPopup pop; AddTo; FlyTo fly]
    (set_lastPosition (Some {| lng := fst (coordinates d); lat := snd (coordinates d) |})
       (set_marker
          (Some (addTo (setPopup pop (with_lngLat (coordinates d) (new_Marker el)))))
          s)).
Proof.
  unfold update_marker. intros -> -> -> Hv. fold (coordinates d).
  now rewrite (setLngLat_valid _ _ Hv).
Qed.

(** The chain of lines 152-155 throws at line 153: the marker has been
    constructed, but the reference, [lastPosition] and [flyTo] are not
    reached. *)
Lemma update_marker_create_throws (s : State) (m : MapObj) (d : VehicleData) :
  map s = Some m -> vehicleData s = Some d -> marker s = None ->
  valid_LngLat (coordinates d) = false ->
  exists err,
    update_marker s =
    set_uncaught (Some err) (call [NewMarker (marker_element (ignition (data d)))] s).
Proof.
  unfold update_marker. intros -> -> -> Hv. fold (coordinates d).
  destruct (setLngLat_invalid _ (new_Marker (marker_element (ignition (data d)))) Hv)
    as (err & ->).
  now exists err.
Qed.

(** A pass of the marker effect does nothing, moves the marker, creates
    it, or throws in moving or in creating it. *)
Lemma update_marker_cases (s : State) :
  update_marker s = s \/
  (exists m d mk,
     map s = Some m /\ vehicleData s = Some d /\ marker s = Some mk /\
     valid_LngLat (coordinates d) = true /\
     update_marker s =
     call [SetLngLat (coordinates d)]
       (set_lastPosition (Some {| lng := fst (coordinates d); lat := snd (coordinates d) |})
          (set_marker (Some (with_lngLat (coordinates d) mk)) s))) \/
  (exists m d,
     map s = Some m /\ vehicleData s = Some d /\ marker s = None /\
     valid_LngLat (coordinates d) = true /\
     update_marker s =
     call [NewMarker (marker_element (ignition (data d)));
           SetLngLat (coordinates d);
           SetPopup (marker_popup (speed (data d)) (ignition (data d))
                       (position_description (location (data d))));
           AddTo;
           FlyTo {| fly_center := coordinates d; fly_zoom := 14; fly_duration := 2000 |}]
       (set_lastPosition
          (Some {| lng := fst (coordinates d); lat := snd (coordinates d) |})
          (set_marker
             (Some (addTo (setPopup
                      (marker_popup (speed (data d)) (ignition (data d))
                         (position_description (location (data d))))
                      (with_lngLat (coordinates d)
                         (new_Marker (marker_element (ignition (data d))))))))
             s))) \/
  (exists d mk err,
     vehicleData s = Some d /\ marker s = Some mk /\
     valid_LngLat (coordinates d) = false /\
     update_marker s = set_uncaught (Some err) s) \/
  (exists d err,
     vehicleData s = Some d /\ marker s = None /\
     valid_LngLat (coordinates d) = false /\
     update_marker s =
     set_uncaught (Some err) (call [NewMarker (marker_element (ignition (data d)))] s)).
Proof.
  destruct (map s) as [m | ] eqn:Hm; [ | left; apply update_marker_idle; now left ].
  destruct (vehicleData s) as [d | ] eqn:Hd; [ | left; apply update_marker_idle; now right ].
  destruct (valid_LngLat (coordinates d)) eqn:Hv; destruct (marker s) as [mk | ] eqn:Hmk.
  - destruct (positionChanged (lastPosition s) (fst (coordinates d)) (snd (coordinates d)))
      eqn:Hc.
    + right. left. exists m, d, mk. repeat split; auto.
      now apply (update_marker_move s m d mk).
    + left. now apply (update_marker_same s m d mk).
  - right. right. left. exists m, d. repeat split; auto.
    now apply (update_marker_create s m d).
  - destruct (positionChanged (lastPosition s) (fst (coordinates d)) (snd (coordinates d)))
      eqn:Hc.
    + destruct (update_marker_move_throws s m d mk Hm Hd Hmk Hc Hv) as (err & H).
      right. right. right. left. exists d, mk, err. now repeat split.
    + left. now apply (update_marker_same s m d mk).
  - destruct (update_marker_create_throws s m d Hm Hd Hmk Hv) as (err & H).
    right. right. right. right. exists d, err. now repeat split.
Qed.

Lemma update_marker_tracks (s : State) : tracks s -> tracks (update_marker s).
Proof.
  intros Ht.
  destruct (update_marker_cases s)
    as [-> | [(m & d & mk & _ & _ & Hmk & _ & ->) | [(m & d & _ & _ & Hmk & _ & ->)
       | [(d & mk & err & _ & Hmk & _ & ->) | (d & err & _ & Hmk & _ & ->)]]]];
    unfold tracks in *.
  - exact Ht.
  - cbn [marker lastPosition calls call set_lastPosition set_marker].
    eexists _, _. split; [ reflexivity | ]. split; [ reflexivity | ].
    now rewrite last_setLngLat_app.
  - cbn [marker lastPosition calls call set_lastPosition set_marker].
    eexists _, _. split; [ reflexivity | ]. split; [ reflexivity | ].
    now rewrite last_setLngLat_app.
  - exact Ht.
  - cbn [marker lastPosition calls call set_uncaught]. rewrite Hmk in *.
    destruct Ht as [H1 H2]. split; [ exact H1 | ].
    now rewrite last_setLngLat_app, H2.
Qed.

Lemma tracks_initial : tracks initial.
Proof. now cbn. Qed.

Lemma tracks_reachable (env : option string) (evs : list Event) :
  tracks (run env evs initial).
Proof.
  apply run_invariant; [ | apply tracks_initial ].
  apply step_preserves; [ apply quiet_tracks | apply update_marker_tracks ].
Qed.

(** C10. In every state the component can reach, a marker that exists
    has coordinates, [lastPosition] is non-null and holds exactly those
    coordinates, they are the argument of the latest [setLngLat] call,
    and so the changed-position check compares the incoming fix with the
    position the marker is rendered at. *)
Theorem lastPosition_is_marker_position
    (env : option string) (evs : list Event) (mk : Marker) :
  let s := run env evs initial in
  marker s = Some mk ->
  exists a b,
    lngLat mk = Some (a, b) /\
    lastPosition s = Some {| lng := a; lat := b |} /\
    last_setLngLat (calls s) = Some (a, b) /\
    forall longitude latitude,
      positionChanged (lastPosition s) longitude latitude =
      strict_neq a longitude || strict_neq b latitude.
Proof.
  intros s Hmk. pose proof (tracks_reachable env evs) as H.
  fold s in H. unfold tracks in H. rewrite Hmk in H.
  destruct H as (a & b & H1 & H2 & H3). exists a, b.
  repeat split; auto. intros. now rewrite H2.
Qed.

Lemma lastPosition_is_marker_position_witness :
  exists a b,
    lngLat marker_home = Some (a, b) /\
    lastPosition tracking = Some {| lng := a; lat := b |} /\
    last_setLngLat (calls tracking) = Some (a, b) /\
    forall longitude latitude,
      positionChanged (lastPosition tracking) longitude latitude =
      strict_neq a longitude || strict_neq b latitude.
Proof.
  apply (lastPosition_is_marker_position None
           [Mount; Elapse 3000; MapLoad; Elapse 100; Settle (ok_in_time fix_home)]).
  reflexivity.
Defined.

(** Observations of the marker calls do not see quiet handlers. *)
Lemma quiet_observed {A : Type} (f : Call -> list A) (s s' : State) :
  (forall c, about_marker c = false -> f c = []) ->
  quiet s s' -> flat_map f (calls s') = flat_map f (calls s).
Proof.
  intros Hf (_ & _ & _ & cs & -> & Hq).
  now rewrite flat_map_app, (quiet_flat_map f cs Hf Hq), app_nil_r.
Qed.

Lemma quiet_flyTos (s s' : State) :
  quiet s s' -> flyTos (calls s') = flyTos (calls s).
Proof. apply quiet_observed. now intros []. Qed.

Lemma quiet_newMarkers (s s' : State) :
  quiet s s' -> newMarkers (calls s') = newMarkers (calls s).
Proof. apply quiet_observed. now intros []. Qed.

(** With a marker, a pass of the effect keeps the marker's element and
    popup, creates no marker, asks for no fly-to and leaves the map
    reference alone. *)
Lemma update_marker_present (s : State) (mk : Marker) :
  marker s = Some mk ->
  exists mk',
    marker (update_marker s) = Some mk' /\
    element mk' = element mk /\ popup mk' = popup mk /\
    addedTo_map mk' = addedTo_map mk /\
    newMarkers (calls (update_marker s)) = newMarkers (calls s) /\
    flyTos (calls (update_marker s)) = flyTos (calls s) /\
    map (update_marker s) = map s.
Proof.
  intros Hmk.
  destruct (update_marker_cases s)
    as [-> | [(m & d & mk0 & _ & _ & Hmk0 & _ & ->) | [(m & d & _ & _ & Hmk0 & _)
       | [(d & mk0 & err & _ & Hmk0 & _ & ->) | (d & err & _ & Hmk0 & _)]]]];
    try congruence.
  - exists mk. now repeat split.
  - rewrite Hmk in Hmk0. injection Hmk0 as <-.
    eexists. split; [ reflexivity | ]. cbn [calls call set_lastPosition set_marker map].
    unfold newMarkers, flyTos. rewrite !flat_map_app, !app_nil_r. now repeat split.
  - exists mk. now repeat split.
Qed.

(** The marker effect leaves the map reference alone. *)
Lemma update_marker_map (s : State) : map (update_marker s) = map s.
Proof.
  destruct (update_marker_cases s)
    as [-> | [(m & d & mk0 & _ & _ & _ & _ & ->) | [(m & d & _ & _ & _ & _ & ->)
       | [(d & mk0 & err & _ & _ & _ & ->) | (d & err & _ & _ & _ & ->)]]]];
    reflexivity.
Qed.

(** C8. Once a marker exists, no event removes it: after any further
    events the marker reference still holds a marker, with the element
    and the popup it was created with, still added to the map, and no
    other marker has been created. *)
Theorem marker_is_permanent
    (env : option string) (evs : list Event) (s : State) (mk : Marker) :
  marker s = Some mk ->
  exists mk',
    marker (run env evs s) = Some mk' /\
    element mk' = element mk /\ popup mk' = popup mk /\
    addedTo_map mk' = addedTo_map mk /\
    newMarkers (calls (run env evs s)) = newMarkers (calls s).
Proof.
  intros Hmk.
  set (P := fun s' : State =>
    exists mk', marker s' = Some mk' /\ element mk' = element mk /\
      popup mk' = popup mk /\ addedTo_map mk' = addedTo_map mk /\
      newMarkers (calls s') = newMarkers (calls s)).
  change (P (run env evs s)). apply (run_invariant env P).
  - apply (step_preserves env P); unfold P.
    + intros s1 s2 Hq (mk' & H1 & H2 & H3 & H4 & H5). exists mk'.
      rewrite (quiet_newMarkers _ _ Hq). destruct Hq as (-> & _). auto.
    + intros s1 (mk1 & H1 & H2 & H3 & H4 & H5).
      destruct (update_marker_present s1 mk1 H1) as (mk2 & G1 & G2 & G3 & G4 & G5 & _).
      exists mk2. repeat split; congruence.
  - now exists mk.
Qed.

Lemma marker_is_permanent_witness :
  exists mk',
    marker (run None [Elapse 15000; Settle (ok_in_time fix_road); Settle Hangs;
                      Unmount; Elapse 15000] tracking) = Some mk' /\
    element mk' = marker_element false /\
    popup mk' = Some (marker_popup 0 false "Home") /\
    addedTo_map mk' = true /\
    newMarkers (calls (run None [Elapse 15000; Settle (ok_in_time fix_road); Settle Hangs;
                                 Unmount; Elapse 15000] tracking))
    = newMarkers (calls tracking).
Proof.
  apply (marker_is_permanent None
           [Elapse 15000; Settle (ok_in_time fix_road); Settle Hangs; Unmount; Elapse 15000]
           tracking marker_home).
  reflexivity.
Defined.

(** A marker is always a marker on the map. *)
Lemma marker_has_map (env : option string) (evs : list Event) :
  marker (run env evs initial) <> None -> map (run env evs initial) <> None.
Proof.
  set (P := fun s : State => marker s <> None -> map s <> None).
  change (P (run env evs initial)). apply (run_invariant env P).
  - apply (step_preserves env P); unfold P.
    + intros s s' (Hm & _ & Hp & _) H. rewrite Hm. auto.
    + intros s H. rewrite update_marker_map.
      destruct (update_marker_cases s)
        as [-> | [(m & d & mk0 & Hm & _) | [(m & d & Hm & _)
           | [(d & mk0 & err & _ & Hmk0 & _ & ->) | (d & err & _ & Hmk0 & _ & ->)]]]];
        try (rewrite Hm; discriminate); auto.
  - now cbn.
Qed.

(** C6. When a fetch succeeds with the coordinates [lastPosition] holds
    (equal in the sense of the code's [!==] check), the step makes no
    call at all, so [setLngLat] is not invoked, and it leaves
    [lastPosition], the marker and the map as they were. *)
Theorem same_position_is_noop
    (env : option string) (evs : list Event) (net : Net) (d : VehicleData) (p : LngLat) :
  let s := run env evs initial in
  attempt net = Ok d ->
  lastPosition s = Some p ->
  strict_eq (lng p) (longitude (location (data d))) = true ->
  strict_eq (lat p) (latitude (location (data d))) = true ->
  let s' := step env (Settle net) s in
  calls s' = calls s /\
  setLngLats (calls s') = setLngLats (calls s) /\
  lastPosition s' = lastPosition s /\
  marker s' = marker s /\
  map s' = map s.
Proof.
  intros s Hok Hlast Hlng Hlat s'.
  assert (Hsame : s' = setError None (setVehicleData (Some d) s) \/ s' = s).
  { unfold s'. cbn [step]. destruct (phase s); auto. left.
    rewrite (settle_success net d s Hok).
    pose proof (tracks_reachable env evs) as Ht. fold s in Ht. unfold tracks in Ht.
    destruct (marker s) as [mk | ] eqn:Hmk; [ | destruct Ht; congruence ].
    destruct (map s) as [m | ] eqn:Hm.
    - apply (update_marker_same _ m d mk); auto. cbn. rewrite Hlast. cbn.
      unfold strict_neq. now rewrite Hlng, Hlat.
    - apply update_marker_idle. now left. }
  destruct Hsame as [-> | ->]; repeat split.
Qed.

Lemma same_position_is_noop_witness :
  let s' := step None (Settle (ok_in_time fix_home_running)) tracking in
  calls s' = calls tracking /\
  setLngLats (calls s') = setLngLats (calls tracking) /\
  lastPosition s' = lastPosition tracking /\
  marker s' = marker tracking /\
  map s' = map tracking.
Proof.
  apply (same_position_is_noop None
           [Mount; Elapse 3000; MapLoad; Elapse 100; Settle (ok_in_time fix_home)]
           (ok_in_time fix_home_running) fix_home_running
           {| lng := 18.5; lat := -33.9 |});
    reflexivity.
Defined.

(** C7. When a fetch succeeds with coordinates that differ from those
    [lastPosition] holds while a marker exists, and the coordinates are
    ones the map library accepts (section 3 of the specification: usable
    as map coordinates), the step makes exactly one call, [setLngLat]
    with the new coordinates, which returns.  The marker keeps its
    element (and with it its colour) and its popup, the map object is
    untouched and no [flyTo] is made, and [lastPosition] takes the new
    coordinates. *)
Theorem changed_position_moves_marker_only
    (env : option string) (evs : list Event) (net : Net) (d : VehicleData)
    (p : LngLat) (mk : Marker) :
  let s := run env evs initial in
  phase s = Live ->
  attempt net = Ok d ->
  marker s = Some mk ->
  lastPosition s = Some p ->
  strict_neq (lng p) (longitude (location (data d)))
  || strict_neq (lat p) (latitude (location (data d))) = true ->
  valid_LngLat (coordinates d) = true ->
  let s' := step env (Settle net) s in
  calls s' = calls s ++ [SetLngLat (coordinates d)] /\
  uncaught s' = uncaught s /\
  marker s' = Some (with_lngLat (coordinates d) mk) /\
  (forall mk', marker s' = Some mk' ->
     element mk' = element mk /\ popup mk' = popup mk /\
     lngLat mk' = Some (coordinates d)) /\
  map s' = map s /\
  flyTos (calls s') = flyTos (calls s) /\
  lastPosition s' =
    Some {| lng := longitude (location (data d)); lat := latitude (location (data d)) |}.
Proof.
  intros s Hlive Hok Hmk Hlast Hchanged Hvalid s'.
  assert (Hmap : map s <> None).
  { apply marker_has_map. fold s. now rewrite Hmk. }
  destruct (map s) as [m | ] eqn:Hm; [ clear Hmap | contradiction ].
  assert (Hs' : s' =
    call [SetLngLat (coordinates d)]
      (set_lastPosition (Some {| lng := fst (coordinates d); lat := snd (coordinates d) |})
         (set_marker (Some (with_lngLat (coordinates d) mk))
            (setError None (setVehicleData (Some d) s))))).
  { unfold s'. cbn [step]. rewrite Hlive, (settle_success net d s Hok).
    apply (update_marker_move _ m d mk); auto. cbn. now rewrite Hlast. }
  rewrite Hs'. cbn [calls call marker lastPosition map uncaught set_lastPosition set_marker
                    setError setVehicleData].
  split; [ reflexivity | ]. split; [ reflexivity | ]. split; [ reflexivity | ].
  split; [ intros mk' [= <-]; repeat split | ].
  split; [ exact Hm | ].
  split; [ | reflexivity ].
  unfold flyTos. now rewrite flat_map_app, app_nil_r.
Qed.

Lemma changed_position_moves_marker_only_witness :
  let s' := step None (Settle (ok_in_time fix_road)) tracking in
  calls s' = calls tracking ++ [SetLngLat (18.52, -33.91)%float] /\
  uncaught s' = uncaught tracking /\
  marker s' = Some (with_lngLat (18.52, -33.91)%float marker_home) /\
  (forall mk', marker s' = Some mk' ->
     element mk' = marker_element false /\
     popup mk' = Some (marker_popup 0 false "Home") /\
     lngLat mk' = Some (18.52, -33.91)%float) /\
  map s' = map tracking /\
  flyTos (calls s') = flyTos (calls tracking) /\
  lastPosition s' = Some {| lng := 18.52; lat := -33.91 |}.
Proof.
  apply (changed_position_moves_marker_only None
           [Mount; Elapse 3000; MapLoad; Elapse 100; Settle (ok_in_time fix_home)]
           (ok_in_time fix_road) fix_road
           {| lng := 18.5; lat := -33.9 |} marker_home);
    reflexivity.
Defined.

(** ** The fly-to animation *)

Lemma flyTos_with_marker (env : option string) (evs : list Event) (s : State) :
  marker s <> None -> flyTos (calls (run env evs s)) = flyTos (calls s).
Proof.
  intros Hmk.
  set (P := fun s' : State => marker s' <> None /\ flyTos (calls s') = flyTos (calls s)).
  assert (H : P (run env evs s)); [ | apply H ].
  apply (run_invariant env P); [ | now split ].
  apply (step_preserves env P); unfold P.
  - intros s1 s2 Hq [H1 H2]. rewrite (quiet_flyTos _ _ Hq).
    destruct Hq as (-> & _). auto.
  - intros s1 [H1 H2]. destruct (marker s1) as [mk | ] eqn:Hmk1; [ | contradiction ].
    destruct (update_marker_present s1 mk Hmk1) as (mk' & G1 & _ & _ & _ & _ & G2 & _).
    split; congruence.
Qed.

Lemma step_gone (env : option string) (e : Event) (s : State) :
  phase s = Gone -> phase (step env e s) = Gone /\ quiet s (step env e s).
Proof.
  intros H. destruct e; cbn [step]; rewrite ?H; auto using quiet_refl.
  split; [ | apply elapse_quiet ].
  unfold elapse. now destruct (interval s).
Qed.

Lemma flyTos_gone (env : option string) (evs : list Event) (s : State) :
  phase s = Gone -> flyTos (calls (run env evs s)) = flyTos (calls s).
Proof.
  revert s. induction evs as [ | e evs IH]; intros s H; cbn [run]; [ reflexivity | ].
  destruct (step_gone env e s H) as [H1 H2].
  now rewrite (IH _ H1), (quiet_flyTos _ _ H2).
Qed.

(** From a mounted view without a marker, the fly-to calls a run adds
    are the one of the first fix, if there is a first fix, provided the
    library accepts its coordinates. *)
Lemma flyTos_from_absent (env : option string) (evs : list Event) (s : State) :
  phase s = Live -> map s <> None -> marker s = None ->
  first_fix_valid evs = true ->
  flyTos (calls (run env evs s)) =
  flyTos (calls s) ++
  match first_fix evs with
  | Some d => [{| fly_center := coordinates d; fly_zoom := 14; fly_duration := 2000 |}]
  | None => []
  end.
Proof.
  revert s. induction evs as [ | e evs IH]; intros s Hlive Hmap Hmk Hv;
    unfold first_fix_valid in Hv; cbn [run first_fix] in *.
  - now rewrite app_nil_r.
  - destruct e as [ | | dt | net | ]; cbn [step]; rewrite ?Hlive.
    + now apply IH.
    + pose proof (map_load_quiet env s) as Hq.
      rewrite IH, (quiet_flyTos _ _ Hq); auto.
      * unfold map_load. destruct (map s); [ | assumption ].
        now destruct (on_load m && negb (loaded m) && negb (removed m)).
      * destruct Hq as (_ & _ & Hp & _). auto.
      * destruct Hq as (-> & _). assumption.
    + pose proof (elapse_quiet env dt s) as Hq.
      rewrite IH, (quiet_flyTos _ _ Hq); auto.
      * unfold elapse. now destruct (interval s).
      * destruct Hq as (_ & _ & Hp & _). auto.
      * destruct Hq as (-> & _). assumption.
    + destruct (attempt net) as [d | err] eqn:Hnet.
      * rewrite (settle_success net d s Hnet).
        destruct (map s) as [m | ] eqn:Hm; [ | contradiction ].
        rewrite (update_marker_create _ m d); auto.
        rewrite flyTos_with_marker; [ | discriminate ].
        cbn [calls call]. unfold flyTos at 1. now rewrite flat_map_app.
      * rewrite (settle_failure net err s Hnet). now rewrite IH.
    + rewrite flyTos_gone; [ | reflexivity ].
      rewrite app_nil_r. apply quiet_flyTos. unfold unmount.
      eapply quiet_trans; [ apply init_map_cleanup_quiet | ].
      eapply quiet_trans; [ apply stop_poll_quiet | ]. quiet_by_computation.
Qed.

(** C5. In the lifetime of a view, whatever the events after mount, when
    the first fix has coordinates the map library accepts (section 3 of
    the specification: usable as map coordinates), the fly-to calls made
    are: none while no fetch has succeeded, and from the first successful
    fetch on exactly one, to the coordinates of that first fix with zoom
    14.  Since this holds for every prefix of a run, the call is made by
    the step of the first successful fetch, and no later fetch adds one,
    whether or not the position changed. *)
Theorem flyTo_once_on_first_fix (env : option string) (evs : list Event) :
  first_fix_valid evs = true ->
  flyTos (calls (run env (Mount :: evs) initial)) =
  match first_fix evs with
  | Some d => [{| fly_center := coordinates d; fly_zoom := 14; fly_duration := 2000 |}]
  | None => []
  end.
Proof.
  intros Hv. cbn [run step phase initial].
  rewrite flyTos_from_absent; try reflexivity; [ discriminate | exact Hv ].
Qed.

Lemma flyTo_once_on_first_fix_witness :
  flyTos (calls (run None
    [Mount; Elapse 3000; MapLoad; Settle Hangs; Settle (ok_in_time fix_home);
     Elapse 15000; Settle (ok_in_time fix_road); Settle (ok_in_time fix_off_map);
     Settle (ok_in_time fix_home)] initial)) =
  [{| fly_center := (18.5, -33.9)%float; fly_zoom := 14; fly_duration := 2000 |}].
Proof.
  apply (flyTo_once_on_first_fix None
    [Elapse 3000; MapLoad; Settle Hangs; Settle (ok_in_time fix_home);
     Elapse 15000; Settle (ok_in_time fix_road); Settle (ok_in_time fix_off_map);
     Settle (ok_in_time fix_home)]).
  reflexivity.
Defined.

(** ** The map surface *)

Lemma same_surface_refl (s : State) : same_surface s s.
Proof. split; [ reflexivity | ]. intros m Hm. now exists m. Qed.

Lemma same_surface_trans (s1 s2 s3 : State) :
  same_surface s1 s2 -> same_surface s2 s3 -> same_surface s1 s3.
Proof.
  intros [H1 H2] [G1 G2]. split; [ congruence | ].
  intros m Hm. destruct (H2 m Hm) as (m' & Hm' & Ho & Hc).
  destruct (G2 m' Hm') as (m'' & Hm'' & Ho' & Hc').
  exists m''. repeat split; congruence.
Qed.

Lemma newMaps_requests (env : option string) (who : Caller) (ts : list N) :
  newMaps (List.map (send_request env who) ts) = [].
Proof. induction ts as [ | t ts IH]; cbn; auto. Qed.

Ltac surface_by_computation :=
  split;
  [ cbn [calls call set_map set_marker set_lastPosition set_interval set_now set_phase
         setLoading setError setVehicleData];
    unfold newMaps; rewrite ?flat_map_app; cbn; fold newMaps;
    rewrite ?newMaps_requests, ?app_nil_r; reflexivity
  | cbn; intros ? ?; eexists; split; [ first [ eassumption | reflexivity ] | ];
    split; congruence ].

(** Splits a goal about [update_marker s] along the ways a pass can go. *)
Ltac marker_cases s :=
  destruct (update_marker_cases s)
    as [-> | [(?m & ?d & ?mk & _ & _ & _ & _ & ->) | [(?m & ?d & _ & _ & _ & _ & ->)
       | [(?d & ?mk & ?err & _ & _ & _ & ->) | (?d & ?err & _ & _ & _ & ->)]]]].

Lemma update_marker_surface (s : State) : same_surface s (update_marker s).
Proof.
  split.
  - marker_cases s;
      cbn [calls call set_lastPosition set_marker set_uncaught];
      unfold newMaps; rewrite ?flat_map_app; cbn; now rewrite ?app_nil_r.
  - rewrite update_marker_map. intros m Hm. now exists m.
Qed.

(** The marker effect reads the clock and the timer of the view but
    changes neither, and sends no request. *)
Lemma update_marker_frame (s : State) :
  phase (update_marker s) = phase s /\
  now (update_marker s) = now s /\
  interval (update_marker s) = interval s /\
  fetches (calls (update_marker s)) = fetches (calls s) /\
  interval_fetches (calls (update_marker s)) = interval_fetches (calls s).
Proof.
  marker_cases s;
    cbn [phase now interval calls call set_lastPosition set_marker set_uncaught];
    unfold fetches, interval_fetches; rewrite ?flat_map_app; cbn;
    rewrite ?app_nil_r; now repeat split.
Qed.

Lemma step_not_fresh (env : option string) (e : Event) (s : State) :
  phase s <> Fresh -> phase (step env e s) <> Fresh.
Proof.
  intros H. destruct e as [ | | dt | net | ]; cbn [step].
  - destruct (phase s) eqn:Hp; congruence.
  - destruct (phase s) eqn:Hp; try congruence.
    unfold map_load. destruct (map s) as [m | ]; try congruence.
    destruct (on_load m && negb (loaded m) && negb (removed m)); cbn; congruence.
  - unfold elapse. now destruct (interval s).
  - destruct (phase s) eqn:Hp; try congruence. unfold settle, fetchVehicleData.
    destruct (attempt net); cbn; [ | congruence ].
    rewrite (proj1 (update_marker_frame _)). cbn. congruence.
  - destruct (phase s) eqn:Hp; try congruence. discriminate.
Qed.

(** Apart from the first mount, no step constructs a map or changes the
    options or the controls of the one there is. *)
Lemma step_surface (env : option string) (e : Event) (s : State) :
  phase s <> Fresh -> same_surface s (step env e s).
Proof.
  intros H. destruct e as [ | | dt | net | ]; cbn [step].
  - destruct (phase s); [ contradiction | | ]; apply same_surface_refl.
  - destruct (phase s); try apply same_surface_refl.
    unfold map_load. destruct (map s) as [m | ] eqn:Hm; [ | apply same_surface_refl ].
    destruct (on_load m && negb (loaded m) && negb (removed m));
      [ | apply same_surface_refl ].
    split.
    + cbn [calls call load_listener]. unfold newMaps. rewrite flat_map_app. cbn.
      now rewrite app_nil_r.
    + cbn. intros m0 Hm0. rewrite Hm in Hm0. injection Hm0 as <-.
      eexists. split; [ reflexivity | ]. now split.
  - unfold elapse. destruct (interval s);
      [ | split; [ reflexivity | cbn; intros m0 Hm0; now exists m0 ] ].
    split.
    + cbn [calls call set_now set_interval]. unfold newMaps. rewrite flat_map_app.
      fold (newMaps (List.map (send_request env ByInterval)
                       (tick_times n (N.to_nat (ticks_due n (now s + dt)))))).
      now rewrite newMaps_requests, app_nil_r.
    + cbn. intros m0 Hm0. now exists m0.
  - destruct (phase s); try apply same_surface_refl.
    unfold settle, fetchVehicleData. destruct (attempt net); cbn [fst snd isSome].
    + eapply same_surface_trans; [ | apply update_marker_surface ].
      split; [ reflexivity | ]. cbn. intros m0 Hm0. now exists m0.
    + split; [ reflexivity | ]. cbn. intros m0 Hm0. now exists m0.
  - destruct (phase s); try apply same_surface_refl.
    unfold unmount, stop_poll, init_map_cleanup.
    destruct (map_cleanup s), (map s) as [m | ] eqn:Hm;
      (split;
       [ cbn [calls call set_phase set_interval set_map]; unfold newMaps;
         rewrite !flat_map_app; cbn; now rewrite !app_nil_r
       | cbn; intros m0 Hm0; rewrite Hm in Hm0;
         first [ discriminate
               | injection Hm0 as <-; eexists;
                 split; [ first [ reflexivity | eassumption ] | now split ] ] ]).
Qed.

(** The first mount constructs the map, with its control. *)
Lemma mount_surface (s : State) :
  map s = None ->
  phase (mount s) = Live /\
  newMaps (calls (mount s)) = newMaps (calls s) ++ [map_options] /\
  exists m, map (mount s) = Some m /\ options m = map_options /\
    controls m = [(NavigationControl, bottom_right)].
Proof.
  intros Hm. unfold mount.
  set (s1 := init_map (set_mapContainer true (set_phase Live s))).
  assert (H1 : s1 =
    set_map_cleanup true
      (call [NewMap map_options; AddControl NavigationControl bottom_right; OnLoad]
         (set_map (Some (on_load_listener (addControl NavigationControl bottom_right
                                             (new_Map map_options))))
            (set_mapContainer true (set_phase Live s))))).
  { unfold s1, init_map. cbn. now rewrite Hm. }
  destruct (update_marker_frame s1) as (Hp & _).
  destruct (update_marker_surface s1) as [Hn Hs].
  split; [ | split ].
  - cbn. rewrite Hp, H1. reflexivity.
  - cbn [calls call start_poll set_interval]. unfold newMaps at 1.
    rewrite flat_map_app. cbn. rewrite app_nil_r. fold (newMaps (calls (update_marker s1))).
    rewrite Hn, H1. cbn [calls call set_map set_mapContainer set_phase set_map_cleanup].
    unfold newMaps. now rewrite flat_map_app.
  - destruct (Hs (on_load_listener (addControl NavigationControl bottom_right
                                      (new_Map map_options)))) as (m' & G1 & G2 & G3).
    { now rewrite H1. }
    exists m'. repeat split; auto.
Qed.

(** C9. The map is constructed exactly once, by the first mount, with
    the fixed configuration: one source of raster tiles, the fixed
    default centre, initial zoom 12, zoom range 2 to 19, and one control,
    the navigation control, anchored bottom-right.  After that the map
    reference is never empty, so that running the effect again does
    nothing, and no event changes the options or the controls. *)
Theorem map_initialized_once (env : option string) (evs : list Event) :
  let s := run env evs initial in
  (if existsb is_Mount evs
   then newMaps (calls s) = [map_options] /\
        init_map s = s /\
        exists m, map s = Some m /\ options m = map_options /\
          controls m = [(NavigationControl, bottom_right)]
   else newMaps (calls s) = [] /\ map s = None) /\
  (exists tiles_source,
     sources (style map_options) = [("osm-tiles", tiles_source)] /\
     source_type tiles_source = "raster" /\
     tiles tiles_source = ["https://tile.openstreetmap.org/{z}/{x}/{y}.png"]) /\
  center map_options = (18.50841, -33.827274)%float /\
  zoom map_options = 12%float /\
  minZoom map_options = 2%float /\
  maxZoom map_options = 19%float.
Proof.
  intros s. split; [ | cbn; repeat split; eexists; repeat split ].
  set (P := fun (seen : bool) (s : State) =>
    if seen
    then phase s <> Fresh /\ newMaps (calls s) = [map_options] /\
         exists m, map s = Some m /\ options m = map_options /\
           controls m = [(NavigationControl, bottom_right)]
    else phase s = Fresh /\ newMaps (calls s) = [] /\ map s = None).
  assert (Hstep : forall e seen s0, P seen s0 -> P (seen || is_Mount e) (step env e s0)).
  { intros e [ | ] s0; unfold P; cbn [orb].
    - intros (Hp & Hn & m & Hm & Ho & Hc).
      destruct (step_surface env e s0 Hp) as [G1 G2].
      destruct (G2 m Hm) as (m' & Hm' & Ho' & Hc').
      split; [ now apply step_not_fresh | ]. split; [ congruence | ].
      exists m'. repeat split; congruence.
    - intros (Hp & Hn & Hm). destruct e as [ | | dt | net | ]; cbn [step is_Mount];
        rewrite ?Hp; auto.
      + destruct (mount_surface s0 Hm) as (G1 & G2 & G3).
        rewrite G2, Hn. split; [ congruence | ]. now split.
      + unfold elapse. destruct (interval s0); cbn; auto.
        split; [ assumption | ]. split; [ | assumption ].
        unfold newMaps. rewrite flat_map_app. fold (newMaps (calls s0)).
        fold (newMaps (List.map (send_request env ByInterval)
                         (tick_times n (N.to_nat (ticks_due n (now s0 + dt)))))).
        now rewrite Hn, newMaps_requests. }
  assert (Hrun : forall l seen s0, P seen s0 -> P (seen || existsb is_Mount l) (run env l s0)).
  { induction l as [ | e l IH]; intros seen s0 H; cbn [run existsb].
    - now rewrite orb_false_r.
    - rewrite orb_assoc. apply IH, Hstep, H. }
  specialize (Hrun evs false initial). cbn [orb] in Hrun. fold s in Hrun.
  unfold P in Hrun. destruct (existsb is_Mount evs).
  - destruct Hrun as (Hp & Hn & m & Hm & Ho & Hc); [ now cbn | ].
    split; [ assumption | ]. split; [ | now exists m ].
    unfold init_map. rewrite Hm. cbn. now rewrite orb_true_r.
  - destruct Hrun as (Hp & Hn & Hm); [ now cbn | ]. now split.
Qed.

(** ** The poll scheduler *)

Lemma interval_requests (env : option string) (ts : list N) :
  interval_fetches (List.map (send_request env ByInterval) ts) = ts.
Proof.
  induction ts as [ | t ts IH]; cbn; [ reflexivity | ].
  unfold interval_fetches in IH. now rewrite IH.
Qed.

Lemma tick_times_shift (due : N) (a n : nat) :
  List.map (fun k => (due + POLL_MS * N.of_nat k)%N) (seq a n) =
  tick_times (due + POLL_MS * N.of_nat a) n.
Proof.
  unfold tick_times. revert a. induction n as [ | n IH]; intros a; [ reflexivity | ].
  cbn [seq List.map]. f_equal.
  - cbn. lia.
  - rewrite IH, <- seq_shift, map_map. apply map_ext. intros k. lia.
Qed.

(** The ticks up to a time, then those from there on, are the ticks. *)
Lemma tick_times_app (due : N) (n1 n2 : nat) :
  tick_times due n1 ++ tick_times (due + POLL_MS * N.of_nat n1) n2 =
  tick_times due (n1 + n2).
Proof.
  rewrite <- (tick_times_shift due n1 n2). unfold tick_times.
  now rewrite seq_app, map_app.
Qed.

Lemma same_poll_refl (s : State) : same_poll s s.
Proof. now repeat split. Qed.

Lemma same_poll_trans (s1 s2 s3 : State) :
  same_poll s1 s2 -> same_poll s2 s3 -> same_poll s1 s3.
Proof.
  intros (H1 & H2 & H3 & H4) (G1 & G2 & G3 & G4). repeat split; congruence.
Qed.

Lemma update_marker_poll (s : State) : same_poll s (update_marker s).
Proof.
  destruct (update_marker_frame s) as (H1 & H2 & H3 & _ & H4). now repeat split.
Qed.

Lemma map_load_poll (env : option string) (s : State) : same_poll s (map_load env s).
Proof.
  unfold map_load. destruct (map s) as [m | ]; [ | apply same_poll_refl ].
  destruct (on_load m && negb (loaded m) && negb (removed m)); [ | apply same_poll_refl ].
  repeat split. cbn [calls call load_listener]. unfold interval_fetches.
  rewrite flat_map_app. cbn. now rewrite app_nil_r.
Qed.

Lemma settle_poll (net : Net) (s : State) : same_poll s (settle net s).
Proof.
  unfold settle, fetchVehicleData. destruct (attempt net); cbn [isSome].
  - eapply same_poll_trans; [ | apply update_marker_poll ]. now repeat split.
  - now repeat split.
Qed.

Lemma same_poll_on_schedule (k : N) (s s' : State) :
  same_poll s s' -> on_schedule k s -> on_schedule k s'.
Proof.
  intros (H1 & H2 & H3 & H4). unfold on_schedule. now rewrite H1, H2, H3, H4.
Qed.

(** The number of ticks that have come due is determined by the clock. *)
Lemma on_schedule_ticks (k : N) (s : State) :
  on_schedule k s -> k = (now s / POLL_MS)%N.
Proof.
  intros (_ & _ & _ & Hlo & Hhi).
  apply (N.div_unique (now s) POLL_MS k (now s - POLL_MS * k)); unfold POLL_MS in *; lia.
Qed.

(** When time passes in a view on schedule, the ticks that come due
    send their requests and the view is on schedule again. *)
Lemma elapse_on_schedule (env : option string) (dt k : N) (s : State) :
  on_schedule k s ->
  on_schedule (k + ticks_due (POLL_MS * (k + 1)) (now s + dt)) (elapse env dt s).
Proof.
  intros (Hp & Hi & Hf & Hlo & Hhi). unfold elapse. rewrite Hi.
  set (n := ticks_due (POLL_MS * (k + 1)) (now s + dt)).
  assert (Hn : (POLL_MS * (k + n) <= now s + dt < POLL_MS * (k + n + 1))%N).
  { unfold n, ticks_due.
    destruct (N.ltb_spec (now s + dt) (POLL_MS * (k + 1))) as [Hlt | Hge].
    - unfold POLL_MS in *. lia.
    - pose proof (N.Div0.mul_div_le (now s + dt - POLL_MS * (k + 1)) POLL_MS) as Hd1.
      pose proof (N.mul_succ_div_gt (now s + dt - POLL_MS * (k + 1)) POLL_MS) as Hd2.
      set (q := ((now s + dt - POLL_MS * (k + 1)) / POLL_MS)%N) in *.
      unfold POLL_MS in *. lia. }
  split; [ exact Hp | ]. split; [ | split ].
  - cbn [interval set_now set_interval call]. f_equal. unfold POLL_MS. lia.
  - cbn [calls set_now set_interval call]. unfold interval_fetches.
    rewrite flat_map_app.
    fold (interval_fetches (calls s)).
    fold (interval_fetches (List.map (send_request env ByInterval)
            (tick_times (POLL_MS * (k + 1)) (N.to_nat n)))).
    rewrite interval_requests, Hf, N2Nat.inj_add.
    rewrite <- tick_times_app. do 2 f_equal. rewrite N2Nat.id. unfold POLL_MS. lia.
  - cbn [now set_now]. exact Hn.
Qed.

(** Until the view is unmounted, it stays on schedule, and only the
    passing of time moves the clock. *)
Lemma step_on_schedule (env : option string) (e : Event) (k : N) (s : State) :
  is_Unmount e = false ->
  on_schedule k s ->
  (exists k', on_schedule k' (step env e s)) /\
  now (step env e s) = (now s + elapsed [e])%N.
Proof.
  intros He H. pose proof H as (Hp & _).
  destruct e as [ | | dt | net | ]; cbn [step elapsed]; rewrite ?Hp, ?N.add_0_r;
    try discriminate.
  - split; [ now exists k | reflexivity ].
  - pose proof (map_load_poll env s) as Hq. split.
    + exists k. now apply (same_poll_on_schedule k s).
    + apply Hq.
  - split.
    + eexists. apply elapse_on_schedule, H.
    + unfold elapse. now destruct (interval s).
  - pose proof (settle_poll net s) as Hq. split.
    + exists k. now apply (same_poll_on_schedule k s).
    + apply Hq.
Qed.

Lemma run_on_schedule (env : option string) (evs : list Event) (k : N) (s : State) :
  existsb is_Unmount evs = false ->
  on_schedule k s ->
  on_schedule ((now s + elapsed evs) / POLL_MS) (run env evs s) /\
  now (run env evs s) = (now s + elapsed evs)%N.
Proof.
  revert k s. induction evs as [ | e evs IH]; intros k s Hu H.
  - cbn [run elapsed]. rewrite N.add_0_r. split; [ | reflexivity ].
    now rewrite <- (on_schedule_ticks k s H).
  - cbn [existsb] in Hu. apply orb_false_elim in Hu as [He Hu].
    destruct (step_on_schedule env e k s He H) as [[k' Hk'] Hnow].
    destruct (IH k' _ Hu Hk') as [G1 G2]. cbn [run].
    assert (Ht : (now (step env e s) + elapsed evs = now s + elapsed (e :: evs))%N).
    { rewrite Hnow. destruct e; cbn [elapsed]; lia. }
    rewrite <- Ht. now split.
Qed.

Lemma mount_on_schedule : on_schedule 0 (mount initial).
Proof.
  split; [ reflexivity | ]. split; [ reflexivity | ]. split; [ reflexivity | ].
  cbn. lia.
Qed.

Lemma In_tick_times (t : N) (n : nat) :
  In t (tick_times POLL_MS n) <->
  exists j, (1 <= j <= N.of_nat n)%N /\ t = (POLL_MS * j)%N.
Proof.
  unfold tick_times. rewrite in_map_iff. split.
  - intros (i & <- & Hi). apply in_seq in Hi. exists (N.of_nat i + 1)%N.
    unfold POLL_MS. lia.
  - intros (j & Hj & ->). exists (N.to_nat (j - 1)). split.
    + rewrite N2Nat.id. unfold POLL_MS. lia.
    + apply in_seq. lia.
Qed.

(** After unmount nothing is scheduled and nothing is called. *)
Lemma gone_silent (env : option string) (evs : list Event) (s : State) :
  phase s = Gone -> interval s = None ->
  calls (run env evs s) = calls s /\ interval (run env evs s) = None.
Proof.
  revert s. induction evs as [ | e evs IH]; intros s Hp Hi; cbn [run]; [ now split | ].
  assert (H : phase (step env e s) = Gone /\ interval (step env e s) = None /\
              calls (step env e s) = calls s).
  { destruct e; cbn [step]; rewrite ?Hp; auto.
    unfold elapse. rewrite Hi. now cbn. }
  destruct H as (H1 & H2 & H3). rewrite <- H3. now apply IH.
Qed.

Lemma unmount_poll (s : State) :
  phase (unmount s) = Gone /\ interval (unmount s) = None /\
  In ClearInterval (calls (unmount s)) /\
  fetches (calls (unmount s)) = fetches (calls s).
Proof.
  unfold unmount, stop_poll, init_map_cleanup.
  destruct (map_cleanup s), (map s) as [m | ];
    cbn [phase interval calls call set_phase set_interval set_map];
    (split; [ reflexivity | ]); (split; [ reflexivity | ]);
    (split; [ apply in_or_app; right; now left | ]);
    unfold fetches; rewrite !flat_map_app; cbn; now rewrite !app_nil_r.
Qed.

(** C3. The code departs from the claim, and from its own comment at
    line 95 ('Wait for map to load before fetching data'): the interval
    is set by an effect of its own at mount, and nothing makes it wait
    for the manual fetch of the [load] listener.  When the map takes 20
    seconds to become ready, the interval has already invoked
    [fetchVehicleData], at 15 seconds, before the first manual fetch. *)
Lemma poll_starts_before_first_manual_fetch :
  fetches (calls (run None [Mount; Elapse 20000; MapLoad] initial)) =
  [(ByInterval, 15000%N); (ByLoad, 20000%N)].
Proof. reflexivity. Qed.

(** X13. The interval is set at mount, whether or not the map
    has become ready, and until unmount its ticks invoke
    [fetchVehicleData] at 15, 30, 45, ... seconds after mount: whatever
    the events in between, the requests it has sent when [T]
    milliseconds have passed are those of the ticks at [15000 * j] for
    [1 <= j <= T / 15000].  Unmount clears the interval, and no request
    is sent after it. *)
Theorem poll_interval_runs_from_mount (env : option string) (evs : list Event) :
  existsb is_Unmount evs = false ->
  let s := run env (Mount :: evs) initial in
  now s = elapsed evs /\
  interval s = Some (15000 * (elapsed evs / 15000 + 1))%N /\
  interval_fetches (calls s) = tick_times 15000 (N.to_nat (elapsed evs / 15000)) /\
  (forall t, In t (interval_fetches (calls s)) <->
     exists j, (1 <= j <= elapsed evs / 15000)%N /\ t = (15000 * j)%N) /\
  forall later,
    let s' := run env (Unmount :: later) s in
    interval s' = None /\
    In ClearInterval (calls s') /\
    fetches (calls s') = fetches (calls s).
Proof.
  intros Hu s.
  destruct (run_on_schedule env evs 0 (mount initial) Hu mount_on_schedule) as [H Hnow].
  change (run env evs (mount initial)) with s in *.
  change (now (mount initial)) with 0%N in *. rewrite N.add_0_l in *.
  destruct H as (Hp & Hi & Hf & _).
  split; [ exact Hnow | ]. split; [ exact Hi | ]. split; [ exact Hf | ]. split.
  - intros t. fold POLL_MS in *. rewrite Hf, In_tick_times, N2Nat.id. reflexivity.
  - intros later s'. unfold s'. cbn [run step]. rewrite Hp.
    destruct (unmount_poll s) as (G1 & G2 & G3 & G4).
    destruct (gone_silent env later (unmount s) G1 G2) as [K1 K2].
    rewrite K1, K2. now repeat split.
Qed.

Lemma poll_interval_runs_from_mount_witness :
  let s := run None [Mount; Elapse 3000; MapLoad; Settle Hangs; Elapse 30000] initial in
  now s = 33000%N /\
  interval s = Some 45000%N /\
  interval_fetches (calls s) = [15000; 30000]%N /\
  (forall t, In t (interval_fetches (calls s)) <->
     exists j, (1 <= j <= 2)%N /\ t = (15000 * j)%N) /\
  forall later,
    let s' := run None (Unmount :: later) s in
    interval s' = None /\
    In ClearInterval (calls s') /\
    fetches (calls s') = fetches (calls s).
Proof.
  apply (poll_interval_runs_from_mount None
           [Elapse 3000; MapLoad; Settle Hangs; Elapse 30000]).
  reflexivity.
Defined.

(** ** The shape of the response body *)

Lemma get_prop (key : string) (v : Value) :
  get key v = if nullish v then TypeError else Got (prop key v).
Proof. now destruct v. Qed.

(** The guard and the reads of the marker effect on any value: nothing
    is read from a falsy value; on a truthy one the reads throw exactly
    when [data] or [data.location] is [undefined] or [null], and
    otherwise yield the properties of [data] and of [data.location]. *)
Lemma marker_reads_spec (v : Value) :
  marker_reads v =
  if negb (truthy v) then None
  else if nullish (prop "data" v) || nullish (prop "location" (prop "data" v))
       then Some TypeError
       else Some (Got
         {| read_longitude := prop "longitude" (prop "location" (prop "data" v));
            read_latitude := prop "latitude" (prop "location" (prop "data" v));
            read_position_description :=
              prop "position_description" (prop "location" (prop "data" v));
            read_speed := prop "speed" (prop "data" v);
            read_ignition := prop "ignition" (prop "data" v);
            read_odometer := prop "odometer" (prop "data" v) |}).
Proof.
  unfold marker_reads. destruct (truthy v) eqn:Ht; cbn [negb]; [ | reflexivity ].
  assert (Hv : nullish v = false) by (destruct v; try discriminate; reflexivity).
  unfold read_fix. rewrite !(get_prop _ v), Hv. cbn [and_then].
  rewrite get_prop. destruct (nullish (prop "data" v)) eqn:Hd; cbn [and_then orb];
    [ reflexivity | ].
  rewrite !(get_prop _ (prop "location" (prop "data" v))).
  destruct (nullish (prop "location" (prop "data" v))) eqn:Hl; cbn [and_then];
    [ reflexivity | ].
  rewrite !(get_prop _ (prop "data" v)), Hd. reflexivity.
Qed.

(** C4, as the specification states it, fails: a body with the fields
    of section 3 at its top level is not one the frontend can parse as it
    reads it, since the reads of the marker effect throw on it; and the
    value of a snapshot of the declared type does not have those fields
    at its top level. *)
Lemma parsed_body_is_not_flat :
  spec_VehicleStatus_shape body_flat = true /\
  marker_reads body_flat = Some TypeError /\
  VehicleData_value fix_home = body_wrapped /\
  spec_VehicleStatus_shape (VehicleData_value fix_home) = false.
Proof. repeat split. Qed.

(** C4, amended.  The frontend reads the status under a top-level field
    [data].  A snapshot of the declared type is, at run time, an object
    with the one field [data], whose value has the shape of section 3,
    while the object itself has not; on it the reads of the marker
    effect yield the fields of the snapshot.  On any body on which these
    reads succeed, [data] and [data.location] are there and what is read
    are their properties.  A body with the shape of section 3 at its top
    level and no [data] field makes the reads throw. *)
Theorem status_is_read_under_data (vd : VehicleData) (v : Value) :
  (exists inner,
     VehicleData_value vd = VObject [("data", inner)] /\
     spec_VehicleStatus_shape inner = true) /\
  spec_VehicleStatus_shape (VehicleData_value vd) = false /\
  marker_reads (VehicleData_value vd) =
    Some (Got
      {| read_longitude := VNumber (longitude (location (data vd)));
         read_latitude := VNumber (latitude (location (data vd)));
         read_position_description :=
           VString (position_description (location (data vd)));
         read_speed := VNumber (speed (data vd));
         read_ignition := VBoolean (ignition (data vd));
         read_odometer := VNumber (odometer (data vd)) |}) /\
  (forall r, marker_reads v = Some (Got r) ->
     nullish (prop "data" v) = false /\
     nullish (prop "location" (prop "data" v)) = false /\
     r = {| read_longitude := prop "longitude" (prop "location" (prop "data" v));
            read_latitude := prop "latitude" (prop "location" (prop "data" v));
            read_position_description :=
              prop "position_description" (prop "location" (prop "data" v));
            read_speed := prop "speed" (prop "data" v);
            read_ignition := prop "ignition" (prop "data" v);
            read_odometer := prop "odometer" (prop "data" v) |}) /\
  (spec_VehicleStatus_shape v = true -> prop "data" v = VUndefined ->
   marker_reads v = Some TypeError).
Proof.
  split; [ eexists; split; reflexivity | ].
  split; [ reflexivity | ]. split; [ reflexivity | ]. split.
  - intros r. rewrite marker_reads_spec.
    destruct (truthy v); cbn [negb]; [ | discriminate ].
    destruct (nullish (prop "data" v)); cbn [orb]; [ discriminate | ].
    destruct (nullish (prop "location" (prop "data" v))); [ discriminate | ].
    intros [= <-]. now repeat split.
  - intros Hshape Hdata. rewrite marker_reads_spec, Hdata.
    destruct v; try discriminate. reflexivity.
Qed.

Lemma status_is_read_under_data_witness :
  (nullish (prop "data" body_wrapped) = false /\
   nullish (prop "location" (prop "data" body_wrapped)) = false /\
   {| read_longitude := VNumber 18.5;
      read_latitude := VNumber (-33.9);
      read_position_description := VString "Home";
      read_speed := VNumber 0;
      read_ignition := VBoolean false;
      read_odometer := VNumber 1200 |} =
   {| read_longitude := prop "longitude" (prop "location" (prop "data" body_wrapped));
      read_latitude := prop "latitude" (prop "location" (prop "data" body_wrapped));
      read_position_description :=
        prop "position_description" (prop "location" (prop "data" body_wrapped));
      read_speed := prop "speed" (prop "data" body_wrapped);
      read_ignition := prop "ignition" (prop "data" body_wrapped);
      read_odometer := prop "odometer" (prop "data" body_wrapped) |}) /\
  marker_reads body_flat = Some TypeError.
Proof.
  split.
  - apply (proj1 (proj2 (proj2 (proj2 (status_is_read_under_data fix_home body_wrapped))))).
    reflexivity.
  - apply (proj2 (proj2 (proj2 (proj2 (status_is_read_under_data fix_home body_flat)))));
      reflexivity.
Defined.

(** * Further properties *)

(** ** The steps of a mounted view *)

Lemma step_live (env : option string) (e : Event) (s : State) :
  phase s = Live ->
  step env e s =
  match e with
  | Mount => s
  | MapLoad => map_load env s
  | Elapse dt => elapse env dt s
  | Settle net => settle net s
  | Unmount => unmount s
  end.
Proof. intros H. destruct e; cbn [step]; now rewrite ?H. Qed.

(** The marker effect does not touch the state cells. *)
Lemma update_marker_hooks (s : State) :
  vehicleData (update_marker s) = vehicleData s /\
  error (update_marker s) = error s /\
  loading (update_marker s) = loading s /\
  map_cleanup (update_marker s) = map_cleanup s.
Proof. marker_cases s; now repeat split. Qed.

Lemma map_load_hooks (env : option string) (s : State) :
  phase (map_load env s) = phase s /\
  vehicleData (map_load env s) = vehicleData s /\
  error (map_load env s) = error s.
Proof.
  unfold map_load. destruct (map s) as [m | ]; [ | now repeat split ].
  now destruct (on_load m && negb (loaded m) && negb (removed m)).
Qed.

Lemma elapse_hooks (env : option string) (dt : N) (s : State) :
  phase (elapse env dt s) = phase s /\
  vehicleData (elapse env dt s) = vehicleData s /\
  error (elapse env dt s) = error s /\
  loading (elapse env dt s) = loading s /\
  marker (elapse env dt s) = marker s /\
  map (elapse env dt s) = map s /\
  map_cleanup (elapse env dt s) = map_cleanup s.
Proof. unfold elapse. now destruct (interval s). Qed.

Lemma settle_hooks (net : Net) (s : State) :
  phase (settle net s) = phase s /\
  vehicleData (settle net s) =
    match attempt net with Ok d => Some d | Throw _ => vehicleData s end /\
  error (settle net s) =
    match attempt net with Ok _ => None | Throw err => Some (error_message err) end /\
  loading (settle net s) = loading s.
Proof.
  unfold settle, fetchVehicleData. destruct (attempt net) as [d | err]; cbn [isSome].
  - destruct (update_marker_hooks (setError None (setVehicleData (Some d) s)))
      as (H1 & H2 & H3 & _).
    destruct (update_marker_frame (setError None (setVehicleData (Some d) s))) as (H0 & _).
    rewrite H0, H1, H2, H3. now repeat split.
  - now repeat split.
Qed.

Lemma unmount_hooks (s : State) :
  phase (unmount s) = Gone /\
  vehicleData (unmount s) = vehicleData s /\
  error (unmount s) = error s /\
  loading (unmount s) = loading s /\
  marker (unmount s) = marker s.
Proof.
  unfold unmount, stop_poll, init_map_cleanup.
  destruct (map_cleanup s), (map s); now repeat split.
Qed.

(** After unmount the state cells, the marker and the map stay as they
    are. *)
Lemma gone_hooks (env : option string) (evs : list Event) (s : State) :
  phase s = Gone ->
  vehicleData (run env evs s) = vehicleData s /\
  error (run env evs s) = error s /\
  loading (run env evs s) = loading s /\
  marker (run env evs s) = marker s /\
  map (run env evs s) = map s.
Proof.
  revert s. induction evs as [ | e evs IH]; intros s Hp; cbn [run]; [ now repeat split | ].
  assert (H : phase (step env e s) = Gone /\
              vehicleData (step env e s) = vehicleData s /\
              error (step env e s) = error s /\
              loading (step env e s) = loading s /\
              marker (step env e s) = marker s /\
              map (step env e s) = map s).
  { destruct e as [ | | dt | net | ]; cbn [step]; rewrite ?Hp; try now repeat split.
    destruct (elapse_hooks env dt s) as (H0 & H1 & H2 & H3 & H4 & H5 & _).
    rewrite H0, H1, H2, H3, H4, H5. now repeat split. }
  destruct H as (H0 & H1 & H2 & H3 & H4 & H5).
  destruct (IH _ H0) as (G1 & G2 & G3 & G4 & G5).
  rewrite G1, G2, G3, G4, G5. now repeat split.
Qed.

(** ** The held snapshot and the error state *)

Lemma hooks_run (env : option string) (evs : list Event) (s : State) :
  phase s = Live ->
  vehicleData (run env evs s) = latest_fix_from (vehicleData s) evs /\
  error (run env evs s) = last_error_from (error s) evs.
Proof.
  revert s. induction evs as [ | e evs IH]; intros s Hp;
    cbn [run latest_fix_from last_error_from]; [ now split | ].
  rewrite (step_live env e s Hp). destruct e as [ | | dt | net | ].
  - now apply IH.
  - destruct (map_load_hooks env s) as (H0 & H1 & H2).
    rewrite <- H1, <- H2. apply IH. congruence.
  - destruct (elapse_hooks env dt s) as (H0 & H1 & H2 & _).
    rewrite <- H1, <- H2. apply IH. congruence.
  - destruct (settle_hooks net s) as (H0 & H1 & H2 & _).
    rewrite <- H1, <- H2. apply IH. congruence.
  - destruct (unmount_hooks s) as (H0 & H1 & H2 & _).
    destruct (gone_hooks env evs _ H0) as (G1 & G2 & _).
    rewrite G1, G2. now split.
Qed.

(** X1. Last response wins: whatever the events after mount, the
    snapshot the view holds is that of the last invocation that settled
    with success while the view was mounted, in the order of settling
    (not of sending) and whole; failures in between leave it. *)
Theorem snapshot_is_latest_success (env : option string) (evs : list Event) :
  vehicleData (run env (Mount :: evs) initial) = latest_fix_from None evs.
Proof.
  cbn [run step phase initial].
  destruct (hooks_run env evs (mount initial)) as [H _]; [ reflexivity | ].
  exact H.
Qed.

(** X2. The error state is that of the last invocation that settled
    while the view was mounted: null when it succeeded, its message when
    it failed.  An earlier failure does not outlast a later success. *)
Theorem error_is_of_last_settle (env : option string) (evs : list Event) :
  error (run env (Mount :: evs) initial) = last_error_from None evs.
Proof.
  cbn [run step phase initial].
  destruct (hooks_run env evs (mount initial)) as [_ H]; [ reflexivity | ].
  exact H.
Qed.

(** ** The loading flag and the manual fetch *)

Lemma same_load_refl (s : State) : same_load s s.
Proof. split; [ | split ]; auto. intros m Hm. now exists m. Qed.

Lemma same_load_trans (s1 s2 s3 : State) :
  same_load s1 s2 -> same_load s2 s3 -> same_load s1 s3.
Proof.
  intros (H1 & H2 & H3) (G1 & G2 & G3). split; [ congruence | ]. split; [ congruence | ].
  intros m Hm. destruct (H3 m Hm) as (m' & Hm' & A1 & A2 & A3).
  destruct (G3 m' Hm') as (m'' & Hm'' & B1 & B2 & B3).
  exists m''. repeat split; congruence.
Qed.

Lemma load_fetches_interval (env : option string) (ts : list N) :
  load_fetches (List.map (send_request env ByInterval) ts) = [].
Proof. induction ts as [ | t ts IH]; cbn; auto. Qed.

Lemma update_marker_load (s : State) : same_load s (update_marker s).
Proof.
  split; [ apply update_marker_hooks | ]. split.
  - marker_cases s;
      cbn [calls call set_lastPosition set_marker set_uncaught];
      unfold load_fetches; rewrite ?flat_map_app; cbn; now rewrite ?app_nil_r.
  - rewrite update_marker_map. intros m Hm. now exists m.
Qed.

Lemma elapse_load (env : option string) (dt : N) (s : State) :
  same_load s (elapse env dt s).
Proof.
  unfold elapse. destruct (interval s).
  - split; [ reflexivity | ]. split.
    + cbn [calls call set_now set_interval]. unfold load_fetches. rewrite flat_map_app.
      fold (load_fetches (List.map (send_request env ByInterval)
              (tick_times n (N.to_nat (ticks_due n (now s + dt)))))).
      now rewrite load_fetches_interval, app_nil_r.
    + cbn. intros m0 Hm0. now exists m0.
  - split; [ reflexivity | ]. split; [ reflexivity | ].
    cbn. intros m0 Hm0. now exists m0.
Qed.

Lemma settle_load (net : Net) (s : State) : same_load s (settle net s).
Proof.
  unfold settle, fetchVehicleData. destruct (attempt net); cbn [isSome].
  - eapply same_load_trans; [ | apply update_marker_load ].
    split; [ reflexivity | ]. split; [ reflexivity | ].
    cbn. intros m0 Hm0. now exists m0.
  - split; [ reflexivity | ]. split; [ reflexivity | ].
    cbn. intros m0 Hm0. now exists m0.
Qed.

Lemma unmount_load (s : State) :
  loading (unmount s) = loading s /\
  load_fetches (calls (unmount s)) = load_fetches (calls s).
Proof.
  unfold unmount, stop_poll, init_map_cleanup.
  destruct (map_cleanup s), (map s); cbn [loading calls call set_phase set_interval set_map];
    unfold load_fetches; rewrite !flat_map_app; cbn; now rewrite !app_nil_r.
Qed.

(** Only the passing of time moves the clock. *)
Lemma now_step (env : option string) (e : Event) (s : State) :
  now (step env e s) = (now s + elapsed [e])%N.
Proof.
  destruct e as [ | | dt | net | ]; cbn [step elapsed]; rewrite ?N.add_0_r.
  - destruct (phase s); auto. unfold mount. cbn [now start_poll call set_interval].
    rewrite (proj1 (proj2 (update_marker_frame _))).
    unfold init_map. cbn. now destruct (map s).
  - destruct (phase s); auto. apply map_load_poll.
  - unfold elapse. now destruct (interval s).
  - destruct (phase s); auto. apply settle_poll.
  - destruct (phase s); auto. unfold unmount, stop_poll, init_map_cleanup.
    now destruct (map_cleanup s), (map s).
Qed.

Lemma gone_load (env : option string) (evs : list Event) (s : State) :
  phase s = Gone ->
  load_fetches (calls (run env evs s)) = load_fetches (calls s).
Proof.
  revert s. induction evs as [ | e evs IH]; intros s Hp; cbn [run]; [ reflexivity | ].
  destruct (step_gone env e s Hp) as [H1 _]. rewrite (IH _ H1).
  destruct e as [ | | dt | net | ]; cbn [step]; rewrite ?Hp; auto.
  apply elapse_load.
Qed.

(** Once the map is ready, the flag stays down and the listener does
    not run again. *)
Lemma loaded_run (env : option string) (evs : list Event) (s : State) :
  phase s <> Fresh -> loading s = false ->
  (exists m, map s = Some m /\ loaded m = true) ->
  loading (run env evs s) = false /\
  load_fetches (calls (run env evs s)) = load_fetches (calls s).
Proof.
  revert s. induction evs as [ | e evs IH]; intros s Hp Hl (m & Hm & Hr); cbn [run];
    [ now split | ].
  destruct (phase s) eqn:Hph; [ contradiction | | ].
  - rewrite (step_live env e s Hph).
    assert (Hsame : forall s', phase s' = Live -> same_load s s' ->
              loading (run env evs s') = false /\
              load_fetches (calls (run env evs s')) = load_fetches (calls s)).
    { intros s' Hp' (H1 & H2 & H3). rewrite <- H2. apply IH; try congruence.
      destruct (H3 m Hm) as (m1 & G1 & _ & G2 & _). exists m1. split; congruence. }
    destruct e as [ | | dt | net | ].
    + apply IH; try congruence. now exists m.
    + unfold map_load. rewrite Hm, Hr, andb_false_r. cbn.
      apply IH; try congruence. now exists m.
    + apply Hsame; [ | apply elapse_load ].
      rewrite (proj1 (elapse_hooks env dt s)). exact Hph.
    + apply Hsame; [ | apply settle_load ].
      rewrite (proj1 (settle_hooks net s)). exact Hph.
    + destruct (unmount_hooks s) as (H0 & _ & _ & H3 & _).
      destruct (unmount_load s) as [_ H4].
      destruct (gone_hooks env evs _ H0) as (_ & _ & G3 & _).
      rewrite G3, (gone_load env evs _ H0), H3, H4. now split.
  - destruct (gone_hooks env (e :: evs) s Hph) as (_ & _ & G3 & _).
    cbn [run] in G3. rewrite G3.
    pose proof (gone_load env (e :: evs) s Hph) as G4. cbn [run] in G4.
    now rewrite G4.
Qed.

(** Until the map is ready the flag is up; the [load] event lowers it
    and makes the listener send its request, once. *)
Lemma awaiting_run (env : option string) (evs : list Event) (s : State) (m : MapObj) :
  phase s = Live -> loading s = true ->
  map s = Some m -> on_load m = true -> loaded m = false -> removed m = false ->
  loading (run env evs s) = negb (isSome (load_time (now s) evs)) /\
  load_fetches (calls (run env evs s)) =
    load_fetches (calls s) ++
    match load_time (now s) evs with Some t => [t] | None => [] end.
Proof.
  revert s m. induction evs as [ | e evs IH]; intros s m Hp Hl Hm H1 H2 H3;
    cbn [run load_time].
  - cbn. now rewrite app_nil_r.
  - rewrite (step_live env e s Hp).
    assert (Hsame : forall s', phase s' = Live -> same_load s s' ->
              loading (run env evs s') = negb (isSome (load_time (now s') evs)) /\
              load_fetches (calls (run env evs s')) =
                load_fetches (calls s) ++
                match load_time (now s') evs with Some t => [t] | None => [] end).
    { intros s' Hp' (G1 & G2 & G3). rewrite <- G2.
      destruct (G3 m Hm) as (m' & Hm' & A1 & A2 & A3).
      apply (IH s' m'); congruence. }
    destruct e as [ | | dt | net | ].
    + now apply (IH s m).
    + unfold map_load. rewrite Hm, H1, H2, H3. cbn [andb negb].
      destruct (loaded_run env evs (load_listener env (set_map (Some (emit_load m)) s)))
        as [G1 G2].
      * cbn. congruence.
      * reflexivity.
      * eexists. split; reflexivity.
      * rewrite G1, G2. cbn [calls call load_listener setLoading set_map isSome negb].
        unfold load_fetches. rewrite flat_map_app. now cbn.
    + pose proof (now_step env (Elapse dt) s) as Hn. cbn [step elapsed] in Hn.
      rewrite N.add_0_r in Hn. rewrite <- Hn.
      apply Hsame; [ | apply elapse_load ].
      rewrite (proj1 (elapse_hooks env dt s)). exact Hp.
    + pose proof (now_step env (Settle net) s) as Hn. cbn [step elapsed] in Hn.
      rewrite Hp, N.add_0_r in Hn. rewrite <- Hn.
      apply Hsame; [ | apply settle_load ].
      rewrite (proj1 (settle_hooks net s)). exact Hp.
    + destruct (unmount_hooks s) as (H0 & _ & _ & G3 & _).
      destruct (unmount_load s) as [_ G4].
      destruct (gone_hooks env evs _ H0) as (_ & _ & K3 & _).
      rewrite K3, (gone_load env evs _ H0), G3, G4, Hl, app_nil_r. now split.
Qed.

Lemma mount_awaits :
  phase (mount initial) = Live /\ loading (mount initial) = true /\
  now (mount initial) = 0%N /\ load_fetches (calls (mount initial)) = [] /\
  exists m, map (mount initial) = Some m /\ on_load m = true /\
    loaded m = false /\ removed m = false.
Proof. repeat split. eexists. repeat split. Qed.

(** X5. The loading flag is up from mount until the map emits [load]
    and down for good from then on, and the [load] listener sends
    exactly one request, at that moment; when the map does not become
    ready before unmount, the flag never goes down and no manual fetch
    is made. *)
Theorem loading_until_map_ready (env : option string) (evs : list Event) :
  let s := run env (Mount :: evs) initial in
  loading s = negb (isSome (load_time 0 evs)) /\
  load_fetches (calls s) =
    match load_time 0 evs with Some t => [t] | None => [] end.
Proof.
  cbn [run step phase initial].
  destruct mount_awaits as (H1 & H2 & H3 & H4 & m & H5 & H6 & H7 & H8).
  destruct (awaiting_run env evs (mount initial) m H1 H2 H5 H6 H7 H8) as [G1 G2].
  rewrite H3, H4 in *. cbn zeta. now split.
Qed.

(** X6. The status panel shows nothing until the map is ready, even
    when a snapshot is already held, and from then on it shows the
    engine state, speed and time of the last snapshot received,
    whatever the marker shows. *)
Theorem status_panel_shows_latest (env : option string) (evs : list Event) :
  status_panel (render (run env (Mount :: evs) initial)) =
  match load_time 0 evs, latest_fix_from None evs with
  | Some _, Some vd => Some (panel_of vd)
  | _, _ => None
  end.
Proof.
  cbn [run step phase initial].
  destruct mount_awaits as (H1 & H2 & H3 & H4 & m & H5 & H6 & H7 & H8).
  destruct (awaiting_run env evs (mount initial) m H1 H2 H5 H6 H7 H8) as [G1 _].
  destruct (hooks_run env evs (mount initial) H1) as [K1 _].
  unfold render. cbn [status_panel]. rewrite K1, G1, H3.
  change (vehicleData (mount initial)) with (@None VehicleData).
  destruct (latest_fix_from None evs) as [vd | ]; [ | now destruct (load_time 0 evs) ].
  now destruct (load_time 0 evs).
Qed.

(** ** The look of the marker *)

Lemma unmount_quiet (s : State) : quiet s (unmount s).
Proof.
  unfold unmount. eapply quiet_trans; [ apply init_map_cleanup_quiet | ].
  eapply quiet_trans; [ apply stop_poll_quiet | ]. quiet_by_computation.
Qed.

Lemma gone_newMarkers (env : option string) (evs : list Event) (s : State) :
  phase s = Gone -> newMarkers (calls (run env evs s)) = newMarkers (calls s).
Proof.
  revert s. induction evs as [ | e evs IH]; intros s Hp; cbn [run]; [ reflexivity | ].
  destruct (step_gone env e s Hp) as [H1 H2].
  now rewrite (IH _ H1), (quiet_newMarkers _ _ H2).
Qed.

(** A marker keeps its look, and no second marker is created. *)
Lemma marker_look_kept (env : option string) (evs : list Event) (s : State) (mk : Marker) :
  marker s = Some mk ->
  looks_like mk (run env evs s) /\
  newMarkers (calls (run env evs s)) = newMarkers (calls s).
Proof.
  intros Hmk.
  set (P := fun s' : State =>
    looks_like mk s' /\ newMarkers (calls s') = newMarkers (calls s)).
  change (P (run env evs s)). apply (run_invariant env P).
  - apply (step_preserves env P); unfold P, looks_like.
    + intros s1 s2 Hq ((mk' & H1 & H2 & H3 & H4) & H5).
      rewrite (quiet_newMarkers _ _ Hq). destruct Hq as (-> & _).
      split; [ now exists mk' | assumption ].
    + intros s1 ((mk1 & H1 & H2 & H3 & H4) & H5).
      destruct (update_marker_present s1 mk1 H1) as (mk2 & G1 & G2 & G3 & G4 & G5 & _).
      split; [ exists mk2; repeat split; congruence | congruence ].
  - split; [ exists mk; now repeat split | reflexivity ].
Qed.

(** From a mounted view without a marker: the first fix, when the
    library accepts its coordinates, decides the look of the marker, for
    good. *)
Lemma first_fix_run (env : option string) (evs : list Event) (s : State) :
  phase s = Live -> map s <> None -> marker s = None ->
  first_fix_valid evs = true ->
  match first_fix evs with
  | Some d =>
      looks_like
        (addTo (setPopup
           (marker_popup (speed (data d)) (ignition (data d))
              (position_description (location (data d))))
           (new_Marker (marker_element (ignition (data d))))))
        (run env evs s) /\
      newMarkers (calls (run env evs s)) =
        newMarkers (calls s) ++ [marker_element (ignition (data d))]
  | None =>
      marker (run env evs s) = None /\
      newMarkers (calls (run env evs s)) = newMarkers (calls s)
  end.
Proof.
  revert s. induction evs as [ | e evs IH]; intros s Hp Hm Hmk Hv;
    unfold first_fix_valid in Hv; cbn [run first_fix] in *.
  - now split.
  - rewrite (step_live env e s Hp).
    assert (Hquiet : forall s', phase s' = Live -> quiet s s' ->
      first_fix_valid evs = true ->
      match first_fix evs with
      | Some d =>
          looks_like
            (addTo (setPopup
               (marker_popup (speed (data d)) (ignition (data d))
                  (position_description (location (data d))))
               (new_Marker (marker_element (ignition (data d))))))
            (run env evs s') /\
          newMarkers (calls (run env evs s')) =
            newMarkers (calls s) ++ [marker_element (ignition (data d))]
      | None =>
          marker (run env evs s') = None /\
          newMarkers (calls (run env evs s')) = newMarkers (calls s)
      end).
    { intros s' Hp' Hq Hv'. rewrite <- (quiet_newMarkers _ _ Hq).
      apply (IH s'); auto.
      - destruct Hq as (_ & _ & Hmap & _). auto.
      - destruct Hq as (-> & _). exact Hmk. }
    destruct e as [ | | dt | net | ].
    + now apply (IH s).
    + apply Hquiet; [ | apply map_load_quiet | exact Hv ].
      rewrite (proj1 (map_load_hooks env s)). exact Hp.
    + apply Hquiet; [ | apply elapse_quiet | exact Hv ].
      rewrite (proj1 (elapse_hooks env dt s)). exact Hp.
    + destruct (attempt net) as [d | err] eqn:Hnet.
      * rewrite (settle_success net d s Hnet).
        destruct (map s) as [m | ] eqn:Hms; [ | contradiction ].
        rewrite (update_marker_create _ m d); auto.
        match goal with |- context [run env evs ?x] => set (s1 := x) end.
        destruct (marker_look_kept env evs s1 _ eq_refl) as [Hlook Hnew].
        split; [ exact Hlook | ].
        rewrite Hnew. unfold s1. cbn [calls call]. unfold newMarkers.
        now rewrite flat_map_app.
      * rewrite (settle_failure net err s Hnet).
        apply Hquiet; [ exact Hp | apply (setters_quiet None) | exact Hv ].
    + destruct (unmount_hooks s) as (H0 & _ & _ & _ & H4).
      rewrite (gone_newMarkers env evs _ H0).
      destruct (gone_hooks env evs _ H0) as (_ & _ & _ & G4 & G5).
      rewrite G4, H4. split; [ exact Hmk | ].
      apply quiet_newMarkers, unmount_quiet.
Qed.

Lemma mount_absent :
  phase (mount initial) = Live /\ marker (mount initial) = None /\
  newMarkers (calls (mount initial)) = [] /\ map (mount initial) <> None.
Proof. repeat split. discriminate. Qed.

(** X3. The marker is created by the first successful fetch and by no
    other, when the coordinates of that first fix are ones the map
    library accepts (not NaN, latitude within -90 and 90; a first fix
    outside that makes the creating chain throw): its element (with the
    colour keyed on [ignition]) and its popup (speed, ignition, position
    text) are built from the first fix and stay so, whatever later fixes
    report; before the first fix there is no marker. *)
Theorem marker_look_is_of_first_fix (env : option string) (evs : list Event) :
  first_fix_valid evs = true ->
  let s := run env (Mount :: evs) initial in
  match first_fix evs with
  | Some d =>
      (exists mk,
         marker s = Some mk /\
         element mk = marker_element (ignition (data d)) /\
         popup mk =
           Some (marker_popup (speed (data d)) (ignition (data d))
                   (position_description (location (data d)))) /\
         addedTo_map mk = true) /\
      newMarkers (calls s) = [marker_element (ignition (data d))]
  | None => marker s = None /\ newMarkers (calls s) = []
  end.
Proof.
  intros Hv. cbn [run step phase initial].
  destruct mount_absent as (H1 & H2 & H3 & H4).
  pose proof (first_fix_run env evs (mount initial) H1 H4 H2 Hv) as H.
  rewrite H3 in H. cbn zeta.
  destruct (first_fix evs) as [d | ].
  - destruct H as (Hlook & Hnew). split; [ exact Hlook | exact Hnew ].
  - exact H.
Qed.

Lemma marker_look_is_of_first_fix_witness :
  let s := run None
    [Mount; MapLoad; Settle (ok_in_time fix_home);
     Settle (ok_in_time fix_home_running); Settle (ok_in_time fix_off_map)] initial in
  (exists mk,
     marker s = Some mk /\
     element mk = marker_element false /\
     popup mk = Some (marker_popup 0 false "Home") /\
     addedTo_map mk = true) /\
  newMarkers (calls s) = [marker_element false].
Proof.
  apply (marker_look_is_of_first_fix None
    [MapLoad; Settle (ok_in_time fix_home);
     Settle (ok_in_time fix_home_running); Settle (ok_in_time fix_off_map)]).
  reflexivity.
Defined.

(** ** Mounted views *)

Lemma mount_cleanup (s : State) : map s = None -> map_cleanup (mount s) = true.
Proof.
  intros Hm. unfold mount. cbn [map_cleanup start_poll call set_interval].
  rewrite (proj2 (proj2 (proj2 (update_marker_hooks _)))).
  unfold init_map. cbn. now rewrite Hm.
Qed.

(** A view that has been mounted has its map, and while it is mounted
    the cleanup of the map effect is registered. *)
Lemma mounted_has_map (env : option string) (evs : list Event) :
  let s := run env evs initial in
  match phase s with
  | Fresh => map s = None
  | Live => map s <> None /\ map_cleanup s = true
  | Gone => map s <> None
  end.
Proof.
  set (P := fun s : State =>
    match phase s with
    | Fresh => map s = None
    | Live => map s <> None /\ map_cleanup s = true
    | Gone => map s <> None
    end).
  change (P (run env evs initial)). apply (run_invariant env P); [ | reflexivity ].
  intros e s. unfold P. destruct (phase s) eqn:Hp.
  - intros Hm. destruct e as [ | | dt | net | ]; cbn [step]; rewrite ?Hp; try exact Hm.
    + destruct (mount_surface s Hm) as (H1 & _ & m & H3 & _).
      rewrite H1, H3, (mount_cleanup s Hm). split; [ discriminate | reflexivity ].
    + destruct (elapse_hooks env dt s) as (H0 & _ & _ & _ & _ & H5 & _).
      now rewrite H0, Hp, H5.
  - intros [Hm Hc]. rewrite (step_live env e s Hp). destruct e as [ | | dt | net | ].
    + now rewrite Hp.
    + rewrite (proj1 (map_load_hooks env s)), Hp. split.
      * destruct (map_load_quiet env s) as (_ & _ & H & _). auto.
      * unfold map_load. destruct (map s) as [m | ]; [ | exact Hc ].
        now destruct (on_load m && negb (loaded m) && negb (removed m)).
    + destruct (elapse_hooks env dt s) as (H0 & _ & _ & _ & _ & H5 & H6).
      now rewrite H0, Hp, H5, H6.
    + rewrite (proj1 (settle_hooks net s)), Hp. split.
      * unfold settle, fetchVehicleData. destruct (attempt net); cbn [isSome]; [ | exact Hm ].
        destruct (update_marker_surface (setError None (setVehicleData (Some a) s))) as [_ H].
        destruct (map s) as [m | ] eqn:Hms; [ | contradiction ].
        destruct (H m Hms) as (m' & Hm' & _). congruence.
      * unfold settle, fetchVehicleData. destruct (attempt net); cbn [isSome]; [ | exact Hc ].
        now rewrite (proj2 (proj2 (proj2 (update_marker_hooks _)))).
    + rewrite (proj1 (unmount_hooks s)).
      destruct (map s) as [m | ] eqn:Hms; [ | contradiction ].
      destruct (unmount_quiet s) as (_ & _ & H & _). apply H. congruence.
  - intros Hm. destruct e as [ | | dt | net | ]; cbn [step]; rewrite ?Hp; try exact Hm.
    destruct (elapse_hooks env dt s) as (H0 & _ & _ & _ & _ & H5 & _).
    now rewrite H0, Hp, H5.
Qed.

(** X4. After a successful fetch in a mounted view whose fix has
    coordinates the map library accepts (not NaN, latitude within -90
    and 90) there is a marker, and it sits at the coordinates of the
    fix: either it has just been placed or moved there, or it was left
    where it was because its coordinates compare equal to those of the
    fix.  (On a fix the library rejects, [setLngLat] throws and the
    marker is where it was, if there is one.) *)
Theorem marker_is_at_the_fix
    (env : option string) (evs : list Event) (net : Net) (d : VehicleData) :
  let s := run env evs initial in
  phase s = Live ->
  attempt net = Ok d ->
  valid_LngLat (coordinates d) = true ->
  let s' := step env (Settle net) s in
  vehicleData s' = Some d /\
  exists mk p,
    marker s' = Some mk /\
    lngLat mk = Some (lng p, lat p) /\
    lastPosition s' = Some p /\
    (p = {| lng := longitude (location (data d)); lat := latitude (location (data d)) |} \/
     strict_eq (lng p) (longitude (location (data d))) = true /\
     strict_eq (lat p) (latitude (location (data d))) = true).
Proof.
  intros s Hp Hok Hv s'.
  pose proof (mounted_has_map env evs) as Hmap. fold s in Hmap. cbv zeta in Hmap.
  rewrite Hp in Hmap. destruct Hmap as [Hmap _].
  destruct (map s) as [m | ] eqn:Hm; [ clear Hmap | contradiction ].
  pose proof (tracks_reachable env evs) as Ht. fold s in Ht. unfold tracks in Ht.
  unfold s'. rewrite (step_live env _ s Hp), (settle_success net d s Hok).
  set (s0 := setError None (setVehicleData (Some d) s)).
  destruct (marker s) as [mk | ] eqn:Hmk.
  - destruct Ht as (a & b & H1 & H2 & _).
    destruct (positionChanged (lastPosition s0) (fst (coordinates d)) (snd (coordinates d)))
      eqn:Hc.
    + rewrite (update_marker_move s0 m d mk); auto.
      split; [ reflexivity | ].
      eexists _, {| lng := longitude (location (data d));
                    lat := latitude (location (data d)) |}.
      split; [ reflexivity | ].
      split; [ reflexivity | ]. split; [ reflexivity | ]. now left.
    + rewrite (update_marker_same s0 m d mk); auto.
      split; [ reflexivity | ]. exists mk, {| lng := a; lat := b |}.
      split; [ exact Hmk | ]. split; [ exact H1 | ]. split; [ exact H2 | ].
      right. unfold s0 in Hc. cbn in Hc. rewrite H2 in Hc. cbn in Hc.
      apply orb_false_elim in Hc as [Ha Hb]. unfold strict_neq in *.
      split; now apply negb_false_iff.
  - rewrite (update_marker_create s0 m d); auto.
    split; [ reflexivity | ].
    eexists _, {| lng := longitude (location (data d));
                  lat := latitude (location (data d)) |}.
    split; [ reflexivity | ].
    split; [ reflexivity | ]. split; [ reflexivity | ]. now left.
Qed.

Lemma marker_is_at_the_fix_witness :
  let s' := step None (Settle (ok_in_time fix_road)) tracking in
  vehicleData s' = Some fix_road /\
  exists mk p,
    marker s' = Some mk /\
    lngLat mk = Some (lng p, lat p) /\
    lastPosition s' = Some p /\
    (p = {| lng := 18.52; lat := -33.91 |} \/
     strict_eq (lng p) 18.52 = true /\ strict_eq (lat p) (-33.91) = true).
Proof.
  apply (marker_is_at_the_fix None
           [Mount; Elapse 3000; MapLoad; Elapse 100; Settle (ok_in_time fix_home)]
           (ok_in_time fix_road) fix_road);
    reflexivity.
Defined.

(** ** Fixes that are not on the map *)

(** X14. A fetch that succeeds with a fix of the declared type whose
    coordinates the map library rejects (NaN, or a latitude outside -90
    to 90) is stored as the snapshot and clears the error, and the
    marker effect, when it has a marker to create or to move, then
    throws in [setLngLat]: the exception leaves the effect uncaught, the
    marker reference and [lastPosition] are as they were, no [setLngLat]
    call returns and no [flyTo] is made; without a marker before, one
    has been constructed, but it is not kept. *)
Theorem off_map_fix_throws
    (env : option string) (evs : list Event) (net : Net) (d : VehicleData) :
  let s := run env evs initial in
  phase s = Live ->
  attempt net = Ok d ->
  valid_LngLat (coordinates d) = false ->
  marker s = None \/
  positionChanged (lastPosition s) (fst (coordinates d)) (snd (coordinates d)) = true ->
  let s' := step env (Settle net) s in
  vehicleData s' = Some d /\ error s' = None /\
  (exists err, LngLat_convert (coordinates d) = inl err /\ uncaught s' = Some err) /\
  marker s' = marker s /\ lastPosition s' = lastPosition s /\
  setLngLats (calls s') = setLngLats (calls s) /\
  flyTos (calls s') = flyTos (calls s) /\
  newMarkers (calls s') =
    newMarkers (calls s) ++
    match marker s with
    | Some _ => []
    | None => [marker_element (ignition (data d))]
    end.
Proof.
  intros s Hp Hok Hv Hneed s'.
  pose proof (mounted_has_map env evs) as Hmap. fold s in Hmap. cbv zeta in Hmap.
  rewrite Hp in Hmap. destruct Hmap as [Hmap _].
  destruct (map s) as [m | ] eqn:Hm; [ clear Hmap | contradiction ].
  unfold s'. rewrite (step_live env _ s Hp), (settle_success net d s Hok).
  set (s0 := setError None (setVehicleData (Some d) s)).
  destruct (LngLat_convert_invalid _ Hv) as (err & Herr).
  unfold update_marker.
  change (map s0) with (map s). change (vehicleData s0) with (Some d).
  change (marker s0) with (marker s). change (lastPosition s0) with (lastPosition s).
  rewrite Hm. fold (coordinates d). unfold setLngLat. rewrite Herr.
  destruct (marker s) as [mk | ] eqn:Hmk.
  - destruct Hneed as [Hneed | Hneed]; [ discriminate | ].
    unfold coordinates in Hneed. cbn [fst snd] in Hneed. rewrite Hneed.
    cbn [vehicleData error uncaught marker lastPosition calls set_uncaught].
    rewrite app_nil_r. repeat split; first [ exact Hmk | now exists err ].
  - cbn [vehicleData error uncaught marker lastPosition calls call set_uncaught].
    unfold setLngLats, flyTos, newMarkers. rewrite !flat_map_app. cbn [flat_map].
    rewrite !app_nil_r. repeat split; first [ exact Hmk | now exists err ].
Qed.

Lemma off_map_fix_throws_witness :
  let s' := step None (Settle (ok_in_time fix_off_map)) tracking in
  vehicleData s' = Some fix_off_map /\ error s' = None /\
  (exists err,
     LngLat_convert (coordinates fix_off_map) = inl err /\ uncaught s' = Some err) /\
  marker s' = Some marker_home /\
  lastPosition s' = Some {| lng := 18.5; lat := -33.9 |} /\
  setLngLats (calls s') = setLngLats (calls tracking) /\
  flyTos (calls s') = flyTos (calls tracking) /\
  newMarkers (calls s') = newMarkers (calls tracking) ++ [].
Proof.
  apply (off_map_fix_throws None
           [Mount; Elapse 3000; MapLoad; Elapse 100; Settle (ok_in_time fix_home)]
           (ok_in_time fix_off_map) fix_off_map);
    [ reflexivity | reflexivity | reflexivity | right; reflexivity ].
Defined.

(** ** Teardown *)

Lemma set_now_same (s : State) : set_now (now s) s = s.
Proof. now destruct s. Qed.

(** After unmount, with the interval cleared, events move the clock
    and nothing else. *)
Lemma gone_frozen (env : option string) (evs : list Event) (s : State) :
  phase s = Gone -> interval s = None ->
  run env evs s = set_now (now s + elapsed evs) s.
Proof.
  revert s. induction evs as [ | e evs IH]; intros s Hp Hi; cbn [run elapsed].
  - now rewrite N.add_0_r, set_now_same.
  - destruct e as [ | | dt | net | ]; cbn [step]; rewrite ?Hp; try now apply IH.
    unfold elapse. rewrite Hi. rewrite IH; [ | exact Hp | exact Hi ].
    cbn [now set_now]. unfold set_now. cbn. now rewrite N.add_assoc.
Qed.

(** X8. Unmount removes the map and clears the interval, once each,
    and from then on the view is frozen: a response that arrives late,
    the map's [load] event or the passing of time change nothing but the
    clock; no state is set and no call is made. *)
Theorem teardown_freezes_the_view
    (env : option string) (evs later : list Event) :
  let s := run env evs initial in
  phase s = Live ->
  let s' := step env Unmount s in
  (exists m, map s = Some m /\ map s' = Some (remove m)) /\
  calls s' = calls s ++ [MapRemove; ClearInterval] /\
  interval s' = None /\
  run env later s' = set_now (now s' + elapsed later) s'.
Proof.
  intros s Hp s'.
  pose proof (mounted_has_map env evs) as Hmap. fold s in Hmap. cbv zeta in Hmap.
  rewrite Hp in Hmap. destruct Hmap as [Hmap Hc].
  destruct (map s) as [m | ] eqn:Hm; [ clear Hmap | contradiction ].
  assert (Hs' : s' = set_phase Gone (stop_poll (call [MapRemove] (set_map (Some (remove m)) s)))).
  { unfold s'. rewrite (step_live env _ s Hp). unfold unmount, init_map_cleanup.
    now rewrite Hc, Hm. }
  split; [ exists m; split; [ reflexivity | now rewrite Hs' ] | ].
  split; [ rewrite Hs'; cbn; now rewrite <- app_assoc | ].
  split; [ now rewrite Hs' | ].
  apply gone_frozen; now rewrite Hs'.
Qed.

Lemma teardown_freezes_the_view_witness :
  let s' := step None Unmount tracking in
  (exists m, map tracking = Some m /\ map s' = Some (remove m)) /\
  calls s' = calls tracking ++ [MapRemove; ClearInterval] /\
  interval s' = None /\
  run None [Settle (ok_in_time fix_road); MapLoad; Elapse 60000] s' =
  set_now (now s' + 60000) s'.
Proof.
  apply (teardown_freezes_the_view None
           [Mount; Elapse 3000; MapLoad; Elapse 100; Settle (ok_in_time fix_home)]
           [Settle (ok_in_time fix_road); MapLoad; Elapse 60000]).
  reflexivity.
Defined.

(** ** The requests *)

Lemma requested_urls_call (cs : list Call) (s : State) :
  requested_urls (calls (call cs s)) = requested_urls (calls s) ++ requested_urls cs.
Proof. cbn [calls call]. unfold requested_urls. apply flat_map_app. Qed.

Lemma update_marker_urls (s : State) :
  requested_urls (calls (update_marker s)) = requested_urls (calls s).
Proof.
  marker_cases s;
    cbn [calls call set_lastPosition set_marker set_uncaught];
    unfold requested_urls; rewrite ?flat_map_app; cbn; now rewrite ?app_nil_r.
Qed.

Lemma requested_urls_requests (env : option string) (who : Caller) (ts : list N) :
  Forall (eq (status_url env)) (requested_urls (List.map (send_request env who) ts)).
Proof. induction ts as [ | t ts IH]; cbn; constructor; auto. Qed.

(** Whatever a step requests, it requests from the status URL. *)
Lemma step_urls (env : option string) (e : Event) (s : State) :
  exists extra,
    requested_urls (calls (step env e s)) = requested_urls (calls s) ++ extra /\
    Forall (eq (status_url env)) extra.
Proof.
  assert (Hnone : exists extra,
            requested_urls (calls s) = requested_urls (calls s) ++ extra /\
            Forall (eq (status_url env)) extra).
  { exists []. now rewrite app_nil_r. }
  destruct e as [ | | dt | net | ]; cbn [step].
  - destruct (phase s); auto. exists []. split; [ | constructor ].
    unfold mount, start_poll. rewrite requested_urls_call. cbn [calls set_interval].
    rewrite update_marker_urls. unfold init_map. cbn [mapContainer map set_mapContainer set_phase negb orb].
    destruct (isSome (map s)); cbn [calls call set_map set_map_cleanup set_mapContainer
                                      set_phase requested_urls];
      unfold requested_urls; rewrite ?flat_map_app; cbn; now rewrite ?app_nil_r.
  - destruct (phase s); auto. unfold map_load. destruct (map s) as [m | ]; auto.
    destruct (on_load m && negb (loaded m) && negb (removed m)); auto.
    exists [status_url env]. split; [ | now repeat constructor ].
    unfold load_listener. now rewrite requested_urls_call.
  - unfold elapse. destruct (interval s).
    + eexists. split; [ | apply (requested_urls_requests env ByInterval) ].
      cbn [calls set_now set_interval]. apply requested_urls_call.
    + exact Hnone.
  - destruct (phase s); auto. unfold settle, fetchVehicleData.
    destruct (attempt net); cbn [isSome]; [ | exact Hnone ].
    rewrite update_marker_urls. exact Hnone.
  - destruct (phase s); auto. exists []. split; [ | constructor ].
    unfold unmount, stop_poll, init_map_cleanup.
    destruct (map_cleanup s), (map s); cbn [calls call set_phase set_interval set_map];
      unfold requested_urls; rewrite ?flat_map_app; cbn; now rewrite ?app_nil_r.
Qed.

(** X9. Every request the component sends, from the [load] listener or
    from the interval, goes to one URL: the configured base, empty when
    [VITE_API_URL] is not set, followed by [/api/vehicle/status]. *)
Theorem requests_go_to_the_status_url (env : option string) (evs : list Event) :
  Forall
    (fun url =>
       url = (match env with Some base => base | None => "" end
              ++ "/api/vehicle/status")%string)
    (requested_urls (calls (run env evs initial))).
Proof.
  set (P := fun s : State => Forall (eq (status_url env)) (requested_urls (calls s))).
  assert (H : P (run env evs initial)).
  { apply (run_invariant env P); [ | constructor ].
    intros e s Hs. unfold P. destruct (step_urls env e s) as (extra & -> & He).
    apply Forall_app. now split. }
  unfold P in H. eapply Forall_impl; [ | exact H ].
  intros url <-. reflexivity.
Qed.

(** ** Running the marker effect again *)

Lemma valid_LngLat_self (p : number * number) :
  valid_LngLat p = true ->
  strict_eq (fst p) (fst p) = true /\ strict_eq (snd p) (snd p) = true.
Proof.
  unfold valid_LngLat, isNaN. intros H.
  apply andb_prop in H as [H _]. apply negb_true_iff, orb_false_elim in H as [Ha Hb].
  split; now apply negb_false_iff.
Qed.

(** X10. When the held snapshot has coordinates the map library accepts
    (not NaN, latitude within -90 and 90), running the marker effect a
    second time on the same snapshot does nothing: a pass leaves the
    view in a state where the position check finds no change.  (With
    coordinates the library rejects, the first pass throws before
    [lastPosition] is assigned, and a second pass would call the library
    again.) *)
Theorem update_marker_twice (s : State) :
  (forall d, vehicleData s = Some d -> valid_LngLat (coordinates d) = true) ->
  update_marker (update_marker s) = update_marker s.
Proof.
  intros Hvalid.
  destruct (update_marker_cases s)
    as [H | [(m & d & mk & Hm & Hd & Hmk & Hv & H)
          | [(m & d & Hm & Hd & Hmk & Hv & H)
          | [(d & mk & err & Hd & Hmk & Hv & H) | (d & err & Hd & Hmk & Hv & H)]]]].
  - now rewrite H.
  - rewrite H. destruct (valid_LngLat_self _ Hv) as [Ha Hb].
    eapply update_marker_same; [ exact Hm | exact Hd | reflexivity | ].
    cbn [lastPosition call set_lastPosition positionChanged lng lat].
    unfold strict_neq. now rewrite Ha, Hb.
  - rewrite H. destruct (valid_LngLat_self _ Hv) as [Ha Hb].
    eapply update_marker_same; [ exact Hm | exact Hd | reflexivity | ].
    cbn [lastPosition call set_lastPosition positionChanged lng lat].
    unfold strict_neq. now rewrite Ha, Hb.
  - rewrite (Hvalid d Hd) in Hv. discriminate.
  - rewrite (Hvalid d Hd) in Hv. discriminate.
Qed.

Lemma update_marker_twice_witness :
  update_marker (update_marker tracking_new_fix) = update_marker tracking_new_fix.
Proof.
  apply update_marker_twice. intros d [= <-]. reflexivity.
Defined.

(** ** Bodies that are not of the declared type *)

(** X11. On a held value that is not of the declared type, the marker
    effect reads nothing when the value is falsy ([undefined], [null],
    [false], [0], [NaN], the empty string): the guard of line 108
    returns first and nothing is thrown.  On a truthy value the reads of
    lines 110-111 throw a [TypeError] exactly when its [data] or
    [data.location] is [undefined] or [null]; otherwise they succeed,
    and a field that is missing is read as [undefined] without any
    error. *)
Theorem reads_throw_on_missing_objects_only (v : Value) :
  match marker_reads v with
  | None => truthy v = false
  | Some (Got r) =>
      truthy v = true /\
      nullish (prop "data" v) || nullish (prop "location" (prop "data" v)) = false /\
      r = {| read_longitude := prop "longitude" (prop "location" (prop "data" v));
             read_latitude := prop "latitude" (prop "location" (prop "data" v));
             read_position_description :=
               prop "position_description" (prop "location" (prop "data" v));
             read_speed := prop "speed" (prop "data" v);
             read_ignition := prop "ignition" (prop "data" v);
             read_odometer := prop "odometer" (prop "data" v) |}
  | Some TypeError =>
      truthy v = true /\
      nullish (prop "data" v) || nullish (prop "location" (prop "data" v)) = true
  end.
Proof.
  rewrite marker_reads_spec. destruct (truthy v); cbn [negb]; [ | reflexivity ].
  now destruct (nullish (prop "data" v) || nullish (prop "location" (prop "data" v))).
Qed.

(** ** The error banner *)

(** X7. The banner after an invocation settles: none on success, the
    fixed texts on a timeout and on a non-2xx status, and for a rejected
    request or a body that does not parse the message of the exception,
    unless that message is empty, in which case the error state is set
    but no banner shows. *)
Theorem banner_after_fetch (net : Net) (s : State) :
  error_banner (render (fst (fetchVehicleData net s))) =
  match net with
  | Hangs => Some "Request timeout - API is slow"
  | Rejects latency err =>
      if (5000 <=? latency)%N then Some "Request timeout - API is slow"
      else banner_of err
  | Resolves latency r =>
      if (5000 <=? latency)%N then Some "Request timeout - API is slow"
      else if negb (ok r) then Some "Failed to fetch vehicle data"
      else match json r with
           | Ok _ => None
           | Throw err => banner_of err
           end
  end /\
  forall name,
    banner_of (ErrorObj name "") =
    if String.eqb name "AbortError" then Some "Request timeout - API is slow" else None.
Proof.
  split.
  - unfold fetchVehicleData, attempt, await_fetch, TIMEOUT_MS, banner_of.
    destruct net as [latency [o j] | latency e | ]; [ | | reflexivity ].
    + rewrite N.leb_antisym.
      destruct (latency <? 5000)%N; [ | reflexivity ].
      destruct o; [ | reflexivity ].
      destruct j as [d | e]; [ reflexivity | ].
      cbn. now destruct (error_message e).
    + rewrite N.leb_antisym.
      destruct (latency <? 5000)%N; [ | reflexivity ].
      cbn. now destruct (error_message e).
  - intros name. unfold banner_of, error_message. cbn.
    now destruct (String.eqb name "AbortError").
Qed.
